(** * MusicCog: the command layer of the music bot

    A shallow embedding of [src/music_bot/music_cog.py].  The objects the cog
    drives ([AudioPlayer], [SongFactory], [UsageDatabase], [utils]) belong to
    other modules; the cog reaches them through an interface class,
    [Collaborators], so that what is proved of a handler holds for every
    implementation of those objects unless a statement names one.

    Command handlers run in a state-and-exception monad over the state of
    the cog.  The tail of [_play], where the handler coroutine shares the
    event loop with the background resolution of a playlist, is a list of
    instructions run one at a time under an arbitrary schedule. *)

From Stdlib Require Import ZArith List Ascii String Bool Lia.
From stdpp Require Import base option list strings gmap.

Local Open Scope Z_scope.
Local Open Scope list_scope.

(** ** Values *)

Record Song := mkSong {
  song_id : string;
  song_title : string
}.

Record VoiceChannel := mkChannel {
  channel_id : Z;
  channel_guild_id : Z;
  (* keys of [channel.voice_states], the members currently in the channel *)
  channel_voice_states : list Z
}.

Record VoiceClient := mkVoiceClient {
  vc_channel : VoiceChannel;
  vc_paused : bool              (* voice_client.is_paused() *)
}.

(** The attributes of an [AudioPlayer] that the cog reads or assigns.
    [audio_player_task] is a reference into the table of driver tasks. *)
Record AudioPlayer := mkAudioPlayer {
  voice_client : option VoiceClient;
  audio_player_task : option nat;
  is_currently_playing : bool;
  current_song : option Song;
  song_queue : list Song;
  prev_songs : list Song;
  is_queue_looping : bool
}.

Definition set_voice_client (v : option VoiceClient) (ap : AudioPlayer) : AudioPlayer :=
  {| voice_client := v;
     audio_player_task := audio_player_task ap;
     is_currently_playing := is_currently_playing ap;
     current_song := current_song ap;
     song_queue := song_queue ap;
     prev_songs := prev_songs ap;
     is_queue_looping := is_queue_looping ap |}.

Definition set_audio_player_task (t : option nat) (ap : AudioPlayer) : AudioPlayer :=
  {| voice_client := voice_client ap;
     audio_player_task := t;
     is_currently_playing := is_currently_playing ap;
     current_song := current_song ap;
     song_queue := song_queue ap;
     prev_songs := prev_songs ap;
     is_queue_looping := is_queue_looping ap |}.

Definition set_song_queue (q : list Song) (ap : AudioPlayer) : AudioPlayer :=
  {| voice_client := voice_client ap;
     audio_player_task := audio_player_task ap;
     is_currently_playing := is_currently_playing ap;
     current_song := current_song ap;
     song_queue := q;
     prev_songs := prev_songs ap;
     is_queue_looping := is_queue_looping ap |}.

(** ** Exceptions *)

(** The exception classes that occur in the cog, with the part of the class
    hierarchy that [isinstance] consults. *)
Inductive ErrClass :=
  | CommandNotFound
  | UserInputError
  | MissingRequiredArgument      (* subclass of UserInputError *)
  | BadArgument                  (* subclass of UserInputError *)
  | CommandInvokeError
  | YoutubeDLError
  | DownloadError                (* subclass of YoutubeDLError *)
  | SpotifyException
  | TypeError
  | IndexError
  | KeyError
  | ValueError
  | AttributeError.

Global Instance ErrClass_eq_dec : EqDecision ErrClass.
Proof. solve_decision. Defined.

Definition base_class (c : ErrClass) : option ErrClass :=
  match c with
  | MissingRequiredArgument | BadArgument => Some UserInputError
  | DownloadError => Some YoutubeDLError
  | _ => None
  end.

Definition issubclass (c d : ErrClass) : bool :=
  bool_decide (c = d) || bool_decide (base_class c = Some d).

(** An exception object: its class and [str(error)]. *)
Record Error := mkError { err_class : ErrClass; err_str : string }.

Inductive Res (A : Type) :=
  | Ret (a : A)
  | Raise (e : ErrClass).
Arguments Ret {A} a.
Arguments Raise {A} e.

(** The second argument of [isinstance]: a class, or (as on line 178 of the
    source) a string literal, which is not a class. *)
Inductive ClassInfo :=
  | Cls (c : ErrClass)
  | StrLit (s : string).

(** [isinstance(error, info)]: Python raises [TypeError] when [info] is
    neither a type, a tuple of types nor a union. *)
Definition isinstance (error : Error) (info : ClassInfo) : Res bool :=
  match info with
  | Cls c => Ret (issubclass (err_class error) c)
  | StrLit _ => Raise TypeError
  end.

(** ** Replies *)

(** One constructor per text the cog passes to [ctx.send]; handlers that send
    the same text share a constructor. *)
Inductive Reply :=
  | RUnknownCommand                      (* l.170 *)
  | RBadUserInput (text : string)        (* l.173 *)
  | RYoutubeDLError (text : string)      (* l.176 *)
  | RSpotifyError                        (* l.180 *)
  | RUnexpectedError (text : string)     (* l.184 *)
  | RNotConnected                        (* l.268 *)
  | RNothingToPause                      (* l.277 *)
  | RAlreadyPaused                       (* l.279 *)
  | RPaused (s : option Song)            (* l.281 *)
  | RNothingPlaying                      (* l.288, 300, 312, 319 *)
  | RAlreadyPlaying                      (* l.290 *)
  | RResumed (s : option Song)           (* l.292 *)
  | RStopped                             (* l.302 *)
  | RNoPreviousSong                      (* l.309 *)
  | REmptyQueue                          (* l.409 *)
  | RInvalidIndex (index : Z)            (* l.416 *)
  | RNoMatch (ytdl_args : string)        (* l.428 *)
  | RRemoved (s : Song)                  (* l.432 *)
  | RPlayNext (s : Song)                 (* l.499 *)
  | RPlayNow (s : Song)                  (* l.501 *)
  | RPlaylistEmbed                       (* l.505 *)
  | RFinishedProcessing.                 (* l.520 *)

(** The replies that report that a control command could not be carried out. *)
Definition is_failure_reply (r : Reply) : bool :=
  match r with
  | RNotConnected | RNothingToPause | RAlreadyPaused | RNothingPlaying
  | RAlreadyPlaying | RNoPreviousSong | REmptyQueue | RInvalidIndex _
  | RNoMatch _ => true
  | _ => false
  end.

(** ** The usage database *)

Record UsageDatabase := mkUsageDb {
  db_reachable : bool;
  db_rows : list Song;          (* song requests stored *)
  db_failure_log : list Song    (* requests whose insertion failed, as logged *)
}.

(** ** Collaborators

    The methods of the absent modules that the cog calls.  Methods of
    [AudioPlayer] take the object and return it as they leave it. *)
Class Collaborators := {
  ap_leave : AudioPlayer -> bool * AudioPlayer;
  ap_pause : AudioPlayer -> bool * AudioPlayer;
  ap_resume : AudioPlayer -> bool * AudioPlayer;
  ap_stop : AudioPlayer -> bool * AudioPlayer;
  ap_skip : bool -> AudioPlayer -> bool * AudioPlayer;
  ap_remove_index : Z -> AudioPlayer -> option Song * AudioPlayer;
  ap_remove_song_ids : gset string -> AudioPlayer -> option Song * AudioPlayer;
  ap_add_to_song_queue : Song -> bool -> AudioPlayer -> AudioPlayer;
  (* utils.is_int and the builtin int *)
  is_int : string -> bool;
  py_int : string -> option Z;
  (* the ids of song_factory.create_yt_playlist(args, is_yt_search=True) *)
  yt_search_ids : string -> gset string;
  (* usage_db.insert_data *)
  insert_data : Song -> UsageDatabase -> Res unit * UsageDatabase
}.

(** Modelled from the spec: the constructor [AudioPlayer(config, usage_db, bot)]
    of the absent audio_player.py; section 4.4 has get_or_create construct
    "a new empty" handle. *)
Definition new_audio_player : AudioPlayer :=
  {| voice_client := None;
     audio_player_task := None;
     is_currently_playing := false;
     current_song := None;
     song_queue := [];
     prev_songs := [];
     is_queue_looping := false |}.

(** ** The cog and its handlers *)

(** Calls made on collaborating objects, in the order they happen. *)
Inductive Call :=
  | CLeave (r : nat)
  | CPause (r : nat)
  | CResume (r : nat)
  | CStop (r : nat)
  | CSkip (r : nat) (back : bool)
  | CRemoveIndex (r : nat) (index : Z)
  | CRemoveSongIds (r : nat) (ids : gset string)
  | CStartAudioPlayer (r : nat)
  | CConnect (ch : VoiceChannel)
  | CMoveTo (ch : VoiceChannel).

(** The state of the cog.  [audio_players] is the dictionary of the source;
    its values are references to [AudioPlayer] objects, which live in
    [players] (position = identity), so that a method call changes the
    object and not the dictionary.  [tasks] holds the driver tasks ever
    started: the player each belongs to and whether it is done. *)
Record Cog := mkCog {
  bot_user_id : Z;
  audio_players : gmap Z nat;
  players : list AudioPlayer;
  tasks : list (nat * bool);
  sent : list Reply;
  calls : list Call
}.

Definition with_audio_players (m : gmap Z nat) (w : Cog) : Cog :=
  mkCog (bot_user_id w) m (players w) (tasks w) (sent w) (calls w).
Definition with_players (ps : list AudioPlayer) (w : Cog) : Cog :=
  mkCog (bot_user_id w) (audio_players w) ps (tasks w) (sent w) (calls w).
Definition with_tasks (ts : list (nat * bool)) (w : Cog) : Cog :=
  mkCog (bot_user_id w) (audio_players w) (players w) ts (sent w) (calls w).
Definition with_sent (s : list Reply) (w : Cog) : Cog :=
  mkCog (bot_user_id w) (audio_players w) (players w) (tasks w) s (calls w).
Definition with_calls (c : list Call) (w : Cog) : Cog :=
  mkCog (bot_user_id w) (audio_players w) (players w) (tasks w) (sent w) c.

(** Handlers run in a state-and-exception monad over [Cog]. *)
Definition M (A : Type) : Type := Cog -> Res A * Cog.

Global Instance M_ret : MRet M := fun _ a w => (Ret a, w).
Global Instance M_bind : MBind M := fun _ _ k m w =>
  match m w with
  | (Ret a, w') => k a w'
  | (Raise e, w') => (Raise e, w')
  end.

Definition raise {A} (e : ErrClass) : M A := fun w => (Raise e, w).
Definition lift_res {A} (r : Res A) : M A := fun w => (r, w).
Definition get_cog : M Cog := fun w => (Ret w, w).
Definition modify (f : Cog -> Cog) : M unit := fun w => (Ret tt, f w).

(** [await ctx.send(...)] *)
Definition send (r : Reply) : M unit :=
  modify (fun w => with_sent (sent w ++ [r]) w).

Definition log_call (c : Call) : M unit :=
  modify (fun w => with_calls (calls w ++ [c]) w).

(** Reading the object behind a reference.  A reference the cog holds always
    denotes an object; the [None] branch is never taken from a state in
    which every registered reference is allocated. *)
Definition read_player (r : nat) : M AudioPlayer := fun w =>
  match players w !! r with
  | Some ap => (Ret ap, w)
  | None => (Raise AttributeError, w)
  end.

Definition write_player (r : nat) (ap : AudioPlayer) : M unit :=
  modify (fun w => with_players (<[r := ap]> (players w)) w).

(** A method call [player.m(...)] on the object behind [r]. *)
Definition call_method {A} (c : Call) (r : nat)
    (m : AudioPlayer -> A * AudioPlayer) : M A :=
  ap ← read_player r;
  log_call c;;
  write_player r (m ap).2;;
  mret (m ap).1.

(** What a command receives: the guild, the author's voice channel, and
    [ctx.audio_player] as set by [cog_before_invoke]. *)
Record Context := mkContext {
  ctx_guild_id : Z;
  ctx_author_channel : option VoiceChannel;
  ctx_audio_player : nat
}.

(** [get_audio_player] (l.147-163) *)
Definition get_audio_player (guild_id : Z) : M nat :=
  w ← get_cog;
  match audio_players w !! guild_id with
  | Some r => mret r
  | None =>
      let r := length (players w) in
      modify (fun w => with_audio_players (<[guild_id := r]> (audio_players w))
                         (with_players (players w ++ [new_audio_player]) w));;
      mret r
  end.

(** [cog_before_invoke] (l.120-125) *)
Definition cog_before_invoke (guild_id : Z) (author_channel : option VoiceChannel)
    : M Context :=
  r ← get_audio_player guild_id;
  mret (mkContext guild_id author_channel r).

(** [cog_command_error] (l.165-187); the result [true] stands for reaching
    [traceback.print_exception] on l.187. *)
Definition cog_command_error (error : Error) : M bool :=
  b1 ← lift_res (isinstance error (Cls CommandNotFound));
  (if b1 : bool then send RUnknownCommand
   else
     b2 ← lift_res (isinstance error (Cls UserInputError));
     if b2 : bool then send (RBadUserInput (err_str error))
     else
       b3 ← lift_res (isinstance error (Cls YoutubeDLError));
       if b3 : bool then send (RYoutubeDLError (err_str error))
       else
         b4 ← lift_res (isinstance error (StrLit "SpotifyException"));
         if b4 : bool then send RSpotifyError
         else send (RUnexpectedError (err_str error)));;
  mret true.

(** A voice-state record as the listener sees it: [state.channel]. *)
Definition VoiceState := option VoiceChannel.

(** [on_voice_state_update] (l.229-244).  [before.channel.guild.id] on a
    [before] without a channel raises [AttributeError]. *)
Definition on_voice_state_update `{Collaborators}
    (member_id : Z) (before after : VoiceState) : M unit :=
  w ← get_cog;
  if negb (member_id =? bot_user_id w) && bool_decide (after = None) then
    match before with
    | None => raise AttributeError
    | Some ch =>
        r ← get_audio_player (channel_guild_id ch);
        ap ← read_player r;
        match voice_client ap with
        | Some vc =>
            if (channel_id ch =? channel_id (vc_channel vc))
               && (length (channel_voice_states ch) <=? 1)%nat
            then call_method (CLeave r) r ap_leave;; mret tt
            else mret tt
        | None => mret tt
        end
    end
  else mret tt.

(** [task.done()] for the task behind a reference. *)
Definition task_done (w : Cog) (t : nat) : bool :=
  match tasks w !! t with
  | Some (_, d) => d
  | None => true
  end.

(** Modelled from the spec: [AudioPlayer.start_audio_player] of the absent
    audio_player.py; section 4.3 has one driver task per session handle,
    which this call creates and stores in [audio_player_task]. *)
Definition start_audio_player (r : nat) : M unit :=
  ap ← read_player r;
  w ← get_cog;
  log_call (CStartAudioPlayer r);;
  modify (fun w => with_tasks (tasks w ++ [(r, false)]) w);;
  write_player r (set_audio_player_task (Some (length (tasks w))) ap).

(** [join] (l.246-261) *)
Definition join (ctx : Context) : M unit :=
  let r := ctx_audio_player ctx in
  match ctx_author_channel ctx with
  | None => raise AttributeError
  | Some destination =>
      ap ← read_player r;
      (match voice_client ap with
       | Some vc =>
           log_call (CMoveTo destination);;
           write_player r (set_voice_client (Some (mkVoiceClient destination (vc_paused vc))) ap)
       | None =>
           log_call (CConnect destination);;
           write_player r (set_voice_client (Some (mkVoiceClient destination false)) ap)
       end);;
      ap ← read_player r;
      w ← get_cog;
      match audio_player_task ap with
      | None => start_audio_player r
      | Some t => if task_done w t then start_audio_player r else mret tt
      end
  end.

(** [leave] (l.263-270); [del] of a missing key raises [KeyError]. *)
Definition leave `{Collaborators} (ctx : Context) : M unit :=
  b ← call_method (CLeave (ctx_audio_player ctx)) (ctx_audio_player ctx) ap_leave;
  if negb b then send RNotConnected
  else
    w ← get_cog;
    match audio_players w !! ctx_guild_id ctx with
    | Some _ =>
        modify (fun w => with_audio_players (delete (ctx_guild_id ctx) (audio_players w)) w)
    | None => raise KeyError
    end.

(** [pause] (l.272-281) *)
Definition pause `{Collaborators} (ctx : Context) : M unit :=
  let r := ctx_audio_player ctx in
  ap ← read_player r;
  if negb (is_currently_playing ap) then send RNothingToPause
  else
    b ← call_method (CPause r) r ap_pause;
    if negb b then send RAlreadyPaused
    else ap' ← read_player r; send (RPaused (current_song ap')).

(** [resume] (l.283-292) *)
Definition resume `{Collaborators} (ctx : Context) : M unit :=
  let r := ctx_audio_player ctx in
  ap ← read_player r;
  if negb (is_currently_playing ap) then send RNothingPlaying
  else
    b ← call_method (CResume r) r ap_resume;
    if negb b then send RAlreadyPlaying
    else ap' ← read_player r; send (RResumed (current_song ap')).

(** [stop] (l.294-302) *)
Definition stop `{Collaborators} (ctx : Context) : M unit :=
  let r := ctx_audio_player ctx in
  b ← call_method (CStop r) r ap_stop;
  if negb b then send RNothingPlaying else send RStopped.

(** [back] (l.304-312) *)
Definition back `{Collaborators} (ctx : Context) : M unit :=
  let r := ctx_audio_player ctx in
  ap ← read_player r;
  match prev_songs ap with
  | [] => send RNoPreviousSong
  | _ :: _ =>
      b ← call_method (CSkip r true) r (ap_skip true);
      if negb b then send RNothingPlaying else mret tt
  end.

(** [skip] (l.314-319) *)
Definition skip `{Collaborators} (ctx : Context) : M unit :=
  let r := ctx_audio_player ctx in
  b ← call_method (CSkip r false) r (ap_skip false);
  if negb b then send RNothingPlaying else mret tt.

(** The five control commands. *)
Inductive Control := Pause | Resume | Stop | Skip | Back.

Definition control `{Collaborators} (c : Control) : Context -> M unit :=
  match c with
  | Pause => pause
  | Resume => resume
  | Stop => stop
  | Skip => skip
  | Back => back
  end.

(** [" ".join(args)] *)
Definition join_args (args : list string) : string := String.concat " " args.

(** [remove] (l.404-432); [args[0]] on the empty tuple raises [IndexError],
    [int] of a string it cannot read raises [ValueError]. *)
Definition remove `{Collaborators} (ctx : Context) (args : list string) : M unit :=
  let r := ctx_audio_player ctx in
  ap ← read_player r;
  match song_queue ap with
  | [] => send REmptyQueue
  | _ :: _ =>
      match args with
      | [] => raise IndexError
      | a0 :: _ =>
          if is_int a0 then
            match py_int a0 with
            | None => raise ValueError
            | Some index =>
                removed_song ← call_method (CRemoveIndex r (index - 1)) r
                                 (ap_remove_index (index - 1));
                match removed_song with
                | None => send (RInvalidIndex index)
                | Some s => send (RRemoved s)
                end
            end
          else
            let ytdl_args := join_args args in
            let song_ids := yt_search_ids ytdl_args in
            removed_song ← call_method (CRemoveSongIds r song_ids) r
                             (ap_remove_song_ids song_ids);
            match removed_song with
            | None => send (RNoMatch ytdl_args)
            | Some s => send (RRemoved s)
            end
      end
  end.

(** ** [_play]: the coroutine behind [play] and [playnext] *)

(** What l.476-487 leave in [song] and [playlist]: the song factory returns
    either one song or a collection. *)
Inductive Resolved :=
  | Single (song : Song)
  | Collection (playlist : list Song).

(** The coroutines handed to [create_task]. *)
Inductive BgTask :=
  | ProcessPlaylist (playlist : list Song).

(** The steps of the handler coroutine after resolution.  [IWait k] is
    [await song.is_processed_event.wait()] for the song at position [k] of
    the playlist: it lets the coroutine continue once that event is set. *)
Inductive Instr :=
  | ISend (r : Reply)
  | ICreateTask (t : BgTask)
  | IWait (k : nat)
  | IInsertData (s : Song)
  | IAddToQueue (s : Song) (play_next : bool).

(** l.464-471: the argument check and the implicit join. *)
Definition _play_prologue (ctx : Context) (args : string) : M unit :=
  if bool_decide (args = EmptyString) then raise UserInputError
  else
    ap ← read_player (ctx_audio_player ctx);
    match voice_client ap with
    | None => join ctx
    | Some _ => mret tt
    end.

(** The body of [for song in playlist] (l.511-518), for the songs from
    position [k] on. *)
Fixpoint consume (enable_usage_database play_next : bool) (k : nat)
    (playlist : list Song) : list Instr :=
  match playlist with
  | [] => []
  | song :: rest =>
      IWait k
      :: (if enable_usage_database then [IInsertData song] else [])
      ++ IAddToQueue song play_next
      :: consume enable_usage_database play_next (S k) rest
  end.

(** l.489-523 *)
Definition _play_body (enable_usage_database play_next : bool) (res : Resolved)
    : list Instr :=
  match res with
  | Single song =>
      (if enable_usage_database then [IInsertData song] else [])
      ++ [IAddToQueue song play_next;
          ISend (if play_next then RPlayNext song else RPlayNow song)]
  | Collection playlist =>
      ISend RPlaylistEmbed
      :: ICreateTask (ProcessPlaylist playlist)
      :: consume enable_usage_database play_next 0 playlist
      ++ [ISend RFinishedProcessing]
  end.

(** The part of the world the body acts on.  [ps_processed] holds the
    positions whose [is_processed_event] is set; [ps_added] lists the songs
    passed to [add_to_song_queue] so far; [ps_pc] is what is left of the
    handler coroutine and [ps_raised] the exception that ended it, if any. *)
Record PlayState := mkPlay {
  ps_player : AudioPlayer;
  ps_usage_db : UsageDatabase;
  ps_sent : list Reply;
  ps_added : list Song;
  ps_background : list BgTask;
  ps_processed : gset nat;
  ps_failed : gset nat;
  ps_pc : list Instr;
  ps_raised : option ErrClass
}.

(** What the event loop may run next: the handler coroutine, the background
    task finishing the song at one position (successfully or not), or the
    outside world changing the reachability of the database. *)
Inductive Label :=
  | LHandler
  | LProcessed (k : nat) (ok : bool)
  | LDatabase (reachable : bool).

Definition being_processed (st : PlayState) (k : nat) : bool :=
  existsb (fun t => match t with ProcessPlaylist pl => (k <? length pl)%nat end)
          (ps_background st).

Definition set_pc (pc : list Instr) (st : PlayState) : PlayState :=
  mkPlay (ps_player st) (ps_usage_db st) (ps_sent st) (ps_added st)
         (ps_background st) (ps_processed st) (ps_failed st) pc (ps_raised st).

(** One instruction of the handler; a wait on an event that is not set
    leaves the coroutine where it is. *)
Definition exec `{Collaborators} (i : Instr) (rest : list Instr) (st : PlayState)
    : PlayState :=
  match i with
  | ISend r =>
      mkPlay (ps_player st) (ps_usage_db st) (ps_sent st ++ [r]) (ps_added st)
             (ps_background st) (ps_processed st) (ps_failed st) rest (ps_raised st)
  | ICreateTask t =>
      mkPlay (ps_player st) (ps_usage_db st) (ps_sent st) (ps_added st)
             (ps_background st ++ [t]) (ps_processed st) (ps_failed st) rest
             (ps_raised st)
  | IWait k =>
      if bool_decide (k ∈ ps_processed st) then set_pc rest st else st
  | IInsertData s =>
      match insert_data s (ps_usage_db st) with
      | (Ret _, db) =>
          mkPlay (ps_player st) db (ps_sent st) (ps_added st)
                 (ps_background st) (ps_processed st) (ps_failed st) rest
                 (ps_raised st)
      | (Raise e, db) =>
          mkPlay (ps_player st) db (ps_sent st) (ps_added st)
                 (ps_background st) (ps_processed st) (ps_failed st) [] (Some e)
      end
  | IAddToQueue s play_next =>
      mkPlay (ap_add_to_song_queue s play_next (ps_player st)) (ps_usage_db st)
             (ps_sent st) (ps_added st ++ [s])
             (ps_background st) (ps_processed st) (ps_failed st) rest (ps_raised st)
  end.

(** Modelled from the spec: the effect of [song_factory.process_playlist] of
    the absent song_factory.py on one entry; section 4.2 has each entry's
    readiness signal fire exactly once, when its data is populated or its
    resolution has permanently failed, a failed entry being marked failed. *)
Definition processed (k : nat) (ok : bool) (st : PlayState) : PlayState :=
  if being_processed st k && negb (bool_decide (k ∈ ps_processed st)) then
    mkPlay (ps_player st) (ps_usage_db st) (ps_sent st) (ps_added st)
           (ps_background st) ({[k]} ∪ ps_processed st)
           (if ok then ps_failed st else {[k]} ∪ ps_failed st)
           (ps_pc st) (ps_raised st)
  else st.

Definition step `{Collaborators} (l : Label) (st : PlayState) : PlayState :=
  match l with
  | LHandler =>
      match ps_pc st with
      | [] => st
      | i :: rest => exec i rest st
      end
  | LProcessed k ok => processed k ok st
  | LDatabase reachable =>
      mkPlay (ps_player st)
             (mkUsageDb reachable (db_rows (ps_usage_db st))
                        (db_failure_log (ps_usage_db st)))
             (ps_sent st) (ps_added st) (ps_background st) (ps_processed st)
             (ps_failed st) (ps_pc st) (ps_raised st)
  end.

Definition run `{Collaborators} (sched : list Label) (st : PlayState) : PlayState :=
  fold_left (fun st l => step l st) sched st.

(** The state in which the body starts. *)
Definition start (ap : AudioPlayer) (db : UsageDatabase) (pc : list Instr)
    : PlayState :=
  mkPlay ap db [] [] [] ∅ ∅ pc None.

Definition finished (st : PlayState) : bool :=
  match ps_pc st, ps_raised st with
  | [], None => true
  | _, _ => false
  end.

(** ** The collaborators as the spec describes them *)

(** Modelled from the spec: [AudioPlayer.add_to_song_queue] of the absent
    audio_player.py; section 3 gives the queue "append (tail)" and "prepend
    (head, for play next)". *)
Definition add_to_song_queue (song : Song) (play_next : bool) (ap : AudioPlayer)
    : AudioPlayer :=
  set_song_queue (if play_next then song :: song_queue ap
                  else song_queue ap ++ [song]) ap.

(** Modelled from the spec: [UsageDatabase.insert_data] of the absent
    usage_database.py; section 6 has [record] "fire-and-forget, failures
    logged not propagated". *)
Definition insert_data_logged (s : Song) (db : UsageDatabase)
    : Res unit * UsageDatabase :=
  if db_reachable db
  then (Ret tt, mkUsageDb true (db_rows db ++ [s]) (db_failure_log db))
  else (Ret tt, mkUsageDb false (db_rows db) (db_failure_log db ++ [s])).

Definition set_paused (p : bool) (ap : AudioPlayer) : AudioPlayer :=
  match voice_client ap with
  | Some vc => set_voice_client (Some (mkVoiceClient (vc_channel vc) p)) ap
  | None => ap
  end.

Definition is_paused (ap : AudioPlayer) : bool :=
  match voice_client ap with
  | Some vc => vc_paused vc
  | None => false
  end.

(** Modelled from the spec: [AudioPlayer.pause] of the absent audio_player.py;
    section 4.3, Playing to Paused, "fails (returns false/no-op signal) if
    not currently Playing". *)
Definition pause_player (ap : AudioPlayer) : bool * AudioPlayer :=
  if is_currently_playing ap && negb (is_paused ap)
  then (true, set_paused true ap)
  else (false, ap).

(** Modelled from the spec: [AudioPlayer.resume] of the absent audio_player.py;
    section 4.3, Paused to Playing, "fails if not currently Paused". *)
Definition resume_player (ap : AudioPlayer) : bool * AudioPlayer :=
  if is_currently_playing ap && is_paused ap
  then (true, set_paused false ap)
  else (false, ap).

(** Modelled from the spec: [AudioPlayer.stop] of the absent audio_player.py;
    section 4.3: the queue is cleared and the current entry discarded, not
    pushed to history; "fails (no-op, reports false) if nothing was playing
    and queue was already empty". *)
Definition stop_player (ap : AudioPlayer) : bool * AudioPlayer :=
  match is_currently_playing ap, song_queue ap with
  | false, [] => (false, ap)
  | _, _ =>
      (true,
       {| voice_client := voice_client (set_paused false ap);
          audio_player_task := audio_player_task ap;
          is_currently_playing := false;
          current_song := None;
          song_queue := [];
          prev_songs := prev_songs ap;
          is_queue_looping := is_queue_looping ap |})
  end.

(** Modelled from the spec: [AudioPlayer.skip] of the absent audio_player.py;
    section 4.3: a forward skip pushes the current entry to history and
    fails if there is no current entry; a back skip prepends the most recent
    history entry to the queue, discards the current entry, and fails
    without mutation if the history is empty or nothing is playing. *)
Definition skip_player (back : bool) (ap : AudioPlayer) : bool * AudioPlayer :=
  match current_song ap with
  | None => (false, ap)
  | Some cur =>
      if back then
        match rev (prev_songs ap) with
        | [] => (false, ap)
        | last :: earlier =>
            (true,
             {| voice_client := voice_client (set_paused false ap);
                audio_player_task := audio_player_task ap;
                is_currently_playing := false;
                current_song := None;
                song_queue := last :: song_queue ap;
                prev_songs := rev earlier;
                is_queue_looping := is_queue_looping ap |})
        end
      else
        (true,
         {| voice_client := voice_client (set_paused false ap);
            audio_player_task := audio_player_task ap;
            is_currently_playing := false;
            current_song := None;
            song_queue := song_queue ap;
            prev_songs := prev_songs ap ++ [cur];
            is_queue_looping := is_queue_looping ap |})
  end.

(** Modelled from the spec: [AudioPlayer.leave] of the absent audio_player.py;
    section 4.4: cancels the driver task, disconnects the sink and returns
    false if there was nothing to leave. *)
Definition leave_player (ap : AudioPlayer) : bool * AudioPlayer :=
  match voice_client ap with
  | None => (false, ap)
  | Some _ => (true, new_audio_player)
  end.

(** Modelled from the spec: [AudioPlayer.remove_from_song_queue(index=...)] of
    the absent audio_player.py, at the 0-based index the cog passes; section
    4.1: fails if out of range, else returns the removed entry. *)
Definition remove_index_player (index : Z) (ap : AudioPlayer)
    : option Song * AudioPlayer :=
  if (0 <=? index) && (index <? Z.of_nat (length (song_queue ap))) then
    (song_queue ap !! Z.to_nat index,
     set_song_queue (delete (Z.to_nat index) (song_queue ap)) ap)
  else (None, ap).

Fixpoint remove_first_match (ids : gset string) (q : list Song)
    : option Song * list Song :=
  match q with
  | [] => (None, [])
  | s :: q' =>
      if bool_decide (song_id s ∈ ids) then (Some s, q')
      else let '(found, q'') := remove_first_match ids q' in (found, s :: q'')
  end.

(** Modelled from the spec: [AudioPlayer.remove_from_song_queue(song_ids=...)]
    of the absent audio_player.py; section 4.1: removes and returns the first
    entry whose identifier is in the set, or signals "not found" without
    mutation. *)
Definition remove_song_ids_player (ids : gset string) (ap : AudioPlayer)
    : option Song * AudioPlayer :=
  let '(found, q) := remove_first_match ids (song_queue ap) in
  (found, set_song_queue q ap).

(** Decimal numerals: an optional minus sign and one or more digits. *)
Definition digit (a : Ascii.ascii) : option Z :=
  let n := Z.of_nat (Ascii.nat_of_ascii a) in
  if (48 <=? n) && (n <=? 57) then Some (n - 48) else None.

Fixpoint digits (acc : Z) (s : string) : option Z :=
  match s with
  | EmptyString => Some acc
  | String a s' =>
      match digit a with
      | Some d => digits (10 * acc + d) s'
      | None => None
      end
  end.

Definition decimal (s : string) : option Z :=
  match s with
  | EmptyString => None
  | String "-"%char EmptyString => None
  | String "-"%char s' => Z.opp <$> digits 0 s'
  | _ => digits 0 s
  end.

(** The collaborators as the spec describes them; the numeral reader and
    the search stand for [int], [is_int] and the YouTube search on the
    inputs used below. *)
Definition described : Collaborators :=
  {| ap_leave := leave_player;
     ap_pause := pause_player;
     ap_resume := resume_player;
     ap_stop := stop_player;
     ap_skip := skip_player;
     ap_remove_index := remove_index_player;
     ap_remove_song_ids := remove_song_ids_player;
     ap_add_to_song_queue := add_to_song_queue;
     is_int := fun s => bool_decide (is_Some (decimal s));
     py_int := decimal;
     yt_search_ids := fun args => {[ args ]};
     insert_data := insert_data_logged |}.

(** ** Vocabulary of the statements *)

(** The world after a method call [c] on the object behind [r] has left it
    as [ap']. *)
Definition after_call (c : Call) (r : nat) (ap' : AudioPlayer) (w : Cog) : Cog :=
  with_players (<[r := ap']> (players w)) (with_calls (calls w ++ [c]) w).

(** The replies sent between two states of the cog. *)
Definition new_replies (w w' : Cog) : list Reply := drop (length (sent w)) (sent w').

(** The test a control command makes itself before it calls the player
    (l.276, 287, 308); [stop] and [skip] make none. *)
Definition rejected_by_handler (c : Control) (ap : AudioPlayer) : bool :=
  match c with
  | Pause | Resume => negb (is_currently_playing ap)
  | Back => bool_decide (prev_songs ap = [])
  | Stop | Skip => false
  end.

(** The player method behind a control command, and the call it shows as. *)
Definition method_of `{Collaborators} (c : Control)
    : AudioPlayer -> bool * AudioPlayer :=
  match c with
  | Pause => ap_pause
  | Resume => ap_resume
  | Stop => ap_stop
  | Skip => ap_skip false
  | Back => ap_skip true
  end.

Definition call_of (c : Control) (r : nat) : Call :=
  match c with
  | Pause => CPause r
  | Resume => CResume r
  | Stop => CStop r
  | Skip => CSkip r false
  | Back => CSkip r true
  end.

(** A control command that answers with a failure reply has not invoked
    the player's operation. *)
Definition failure_makes_no_call `{Collaborators} (c : Control) (ctx : Context)
    (w : Cog) : Prop :=
  let w' := (control c ctx w).2 in
  (exists m, is_failure_reply m = true /\ new_replies w w' = [m]) ->
  calls w' = calls w.

(** ** Sample states *)

Definition song_a : Song := mkSong "a" "Song A".
Definition song_b : Song := mkSong "b" "Song B".
Definition song_c : Song := mkSong "c" "Song C".
Definition song_d : Song := mkSong "d" "Song D".
Definition song_e : Song := mkSong "e" "Song E".

(** A channel of guild 1 in which only the bot (member 7) is left. *)
Definition channel_a : VoiceChannel := mkChannel 10 1 [7].

Definition playing_player : AudioPlayer :=
  {| voice_client := Some (mkVoiceClient channel_a false);
     audio_player_task := Some 0%nat;
     is_currently_playing := true;
     current_song := Some song_a;
     song_queue := [song_b; song_c];
     prev_songs := [];
     is_queue_looping := false |}.

Definition cog_idle : Cog := mkCog 7 {[ 1 := 0%nat ]} [new_audio_player] [] [] [].
Definition cog_playing : Cog :=
  mkCog 7 {[ 1 := 0%nat ]} [playing_player] [(0%nat, false)] [] [].
Definition ctx_1 : Context := mkContext 1 (Some channel_a) 0.

(** ** Driver tasks *)

(** What bears on the driver tasks: a [join] command in a guild, with
    [cog_before_invoke] ahead of it, and the event loop finding that a
    driver task has completed. *)
Inductive DriverEvent :=
  | EJoin (guild_id : Z) (author_channel : VoiceChannel)
  | ETaskDone (t : nat).

Definition mark_done (t : nat) (w : Cog) : Cog :=
  match tasks w !! t with
  | Some (owner, _) => with_tasks (<[t := (owner, true)]> (tasks w)) w
  | None => w
  end.

Definition driver_step (ev : DriverEvent) (w : Cog) : Cog :=
  match ev with
  | EJoin g ch => ((ctx ← cog_before_invoke g (Some ch); join ctx) w).2
  | ETaskDone t => mark_done t w
  end.

Definition driver_run (evs : list DriverEvent) (w : Cog) : Cog :=
  fold_left (fun w ev => driver_step ev w) evs w.

(** The cog as [__init__] leaves it. *)
Definition empty_cog (bot : Z) : Cog := mkCog bot ∅ [] [] [] [].

(** Task [t] is a driver task of the player [r] that has not completed. *)
Definition live_driver (w : Cog) (r t : nat) : Prop :=
  tasks w !! t = Some (r, false).

(** Every live driver task is the one its player holds in
    [audio_player_task]. *)
Definition drivers_held (w : Cog) : Prop :=
  forall t r, live_driver w r t ->
    exists ap, players w !! r = Some ap /\ audio_player_task ap = Some t.

(** The player after l.249-253 of [join], and the call made there. *)
Definition connected_to (destination : VoiceChannel) (ap : AudioPlayer) : AudioPlayer :=
  match voice_client ap with
  | Some vc => set_voice_client (Some (mkVoiceClient destination (vc_paused vc))) ap
  | None => set_voice_client (Some (mkVoiceClient destination false)) ap
  end.

Definition connect_call (destination : VoiceChannel) (ap : AudioPlayer) : Call :=
  match voice_client ap with
  | Some _ => CMoveTo destination
  | None => CConnect destination
  end.

(** The world after [start_audio_player] on the player [ap] behind [r]. *)
Definition driver_started (r : nat) (ap : AudioPlayer) (w : Cog) : Cog :=
  with_players (<[r := set_audio_player_task (Some (length (tasks w))) ap]> (players w))
    (with_tasks (tasks w ++ [(r, false)])
       (with_calls (calls w ++ [CStartAudioPlayer r]) w)).

(** ** Reading a coroutine *)

(** The songs a coroutine passes to [add_to_song_queue], in program order. *)
Fixpoint adds_of (pc : list Instr) : list Song :=
  match pc with
  | [] => []
  | IAddToQueue s _ :: pc' => s :: adds_of pc'
  | _ :: pc' => adds_of pc'
  end.

(** The positions a coroutine waits on, in program order. *)
Fixpoint waits_of (pc : list Instr) : list nat :=
  match pc with
  | [] => []
  | IWait k :: pc' => k :: waits_of pc'
  | _ :: pc' => waits_of pc'
  end.

(** [guarded waited k pc]: in [pc], which has [k] entries behind it, every
    wait is on the position of the next entry to add, and every add comes
    after the wait on its own position ([waited] tells whether that wait is
    already behind). *)
Fixpoint guarded (waited : bool) (k : nat) (pc : list Instr) : bool :=
  match pc with
  | [] => true
  | IWait j :: pc' => bool_decide (j = k) && guarded true k pc'
  | IAddToQueue _ _ :: pc' => waited && guarded false (S k) pc'
  | _ :: pc' => guarded waited k pc'
  end.

(** Every add of the coroutine is made with the same [play_next]. *)
Fixpoint adds_with (play_next : bool) (pc : list Instr) : bool :=
  match pc with
  | [] => true
  | IAddToQueue _ pn :: pc' => bool_decide (pn = play_next) && adds_with play_next pc'
  | _ :: pc' => adds_with play_next pc'
  end.

(** [RFinishedProcessing], if the coroutine sends it, is its last step. *)
Fixpoint finishes_last (pc : list Instr) : bool :=
  match pc with
  | [] => true
  | ISend RFinishedProcessing :: pc' => bool_decide (pc' = [])
  | _ :: pc' => finishes_last pc'
  end.

(** The handler left to itself for [n] turns of the event loop. *)
Definition handler_turns (n : nat) : list Label := repeat LHandler n.

(** A failed entry of the playlist is not among the songs added. *)
Definition failed_entries_skipped (playlist : list Song) (st : PlayState) : Prop :=
  forall k s, k ∈ ps_failed st -> playlist !! k = Some s -> s ∉ ps_added st.

(** The loop that waits on the entries is not the handler's own, but a
    task in the background: the handler of a collection request can run to
    its end by itself, with no entry resolved yet. *)
Definition handled_without_waiting `{Collaborators} (enable_usage_database
    play_next : bool) (playlist : list Song) (ap : AudioPlayer)
    (db : UsageDatabase) : Prop :=
  exists n,
    finished (run (handler_turns n)
                (start ap db (_play_body enable_usage_database play_next
                                (Collection playlist)))) = true.

(** Sample collections and databases. *)
Definition album_5 : list Song := [song_a; song_b; song_c; song_d; song_e].
Definition db_up : UsageDatabase := mkUsageDb true [] [].

(** The five entries resolved in reverse collection order, after the handler
    has sent the embed and created the background task. *)
Definition reverse_resolution : list Label :=
  [LHandler; LHandler;
   LProcessed 4 true; LProcessed 3 true; LProcessed 2 true;
   LProcessed 1 true; LProcessed 0 true].

(** The background tasks a coroutine creates, in program order. *)
Fixpoint creates_of (pc : list Instr) : list BgTask :=
  match pc with
  | [] => []
  | ICreateTask t :: pc' => t :: creates_of pc'
  | _ :: pc' => creates_of pc'
  end.

Definition set_failed (failed : gset nat) (st : PlayState) : PlayState :=
  mkPlay (ps_player st) (ps_usage_db st) (ps_sent st) (ps_added st)
         (ps_background st) (ps_processed st) failed (ps_pc st) (ps_raised st).

(** A two-song collection whose second entry fails to resolve. *)
Definition second_fails : list Label :=
  [LHandler; LHandler; LProcessed 0 true; LProcessed 1 false].

(** ** Invariants of the handler coroutine *)

(** What has been added, followed by what the coroutine will still add, is
    the list the coroutine set out with, unless an exception cut it short. *)
Definition adds_agree (all : list Song) (st : PlayState) : Prop :=
  (ps_added st ++ adds_of (ps_pc st)) `prefix_of` all
  /\ (ps_raised st = None -> ps_added st ++ adds_of (ps_pc st) = all)
  /\ (ps_raised st <> None -> ps_pc st = []).

(** Every add is behind the wait on its own position, and all positions
    behind have fired. *)
Definition adds_waited (st : PlayState) : Prop :=
  (exists waited,
      guarded waited (length (ps_added st)) (ps_pc st) = true
      /\ (waited = true -> length (ps_added st) ∈ ps_processed st))
  /\ (forall j, (j < length (ps_added st))%nat -> j ∈ ps_processed st).

(** The player is the one the handler started with, after the adds so far. *)
Definition player_follows `{Collaborators} (play_next : bool) (ap : AudioPlayer)
    (st : PlayState) : Prop :=
  adds_with play_next (ps_pc st) = true
  /\ ps_player st =
       fold_left (fun p s => ap_add_to_song_queue s play_next p) (ps_added st) ap.

(** [RFinishedProcessing] is sent by the last step only. *)
Definition finish_is_last (st : PlayState) : Prop :=
  finishes_last (ps_pc st) = true
  /\ (RFinishedProcessing ∈ ps_sent st -> ps_pc st = [] /\ ps_raised st = None)
  /\ (ps_raised st <> None -> ps_pc st = []).

(** Nothing but the resolution of the playlist is handed to the event loop. *)
Definition background_agrees (all : list BgTask) (st : PlayState) : Prop :=
  (ps_background st ++ creates_of (ps_pc st)) `prefix_of` all.

(** ** Commands as the dispatcher runs them *)

(** The commands modelled above. *)
Inductive Command :=
  | DoJoin
  | DoLeave
  | DoControl (c : Control)
  | DoRemove (args : list string).

Definition handler `{Collaborators} (c : Command) (ctx : Context) : M unit :=
  match c with
  | DoJoin => join ctx
  | DoLeave => leave ctx
  | DoControl c => control c ctx
  | DoRemove args => remove ctx args
  end.

(** A command issued in a guild: [cog_before_invoke], then the handler. *)
Definition dispatch `{Collaborators} (c : Command) (guild_id : Z)
    (author_channel : option VoiceChannel) : M unit :=
  ctx ← cog_before_invoke guild_id author_channel;
  handler c ctx.

(** What the cog reacts to. *)
Inductive Event :=
  | OnCommand (c : Command) (guild_id : Z) (author_channel : option VoiceChannel)
  | OnVoiceStateUpdate (member_id : Z) (before after : VoiceState).

Definition event_step `{Collaborators} (ev : Event) (w : Cog) : Cog :=
  match ev with
  | OnCommand c g author => (dispatch c g author w).2
  | OnVoiceStateUpdate member before after =>
      (on_voice_state_update member before after w).2
  end.

Definition cog_run `{Collaborators} (evs : list Event) (w : Cog) : Cog :=
  fold_left (fun w ev => event_step ev w) evs w.

(** The guild an event is about, if any. *)
Definition event_guild (ev : Event) : option Z :=
  match ev with
  | OnCommand _ g _ => Some g
  | OnVoiceStateUpdate _ before _ => channel_guild_id <$> before
  end.

(** Every registered reference denotes an object, and no object is
    registered for two guilds. *)
Definition registry_sound (w : Cog) : Prop :=
  (forall g r, audio_players w !! g = Some r -> (r < length (players w))%nat)
  /\ (forall g1 g2 r,
        audio_players w !! g1 = Some r -> audio_players w !! g2 = Some r -> g1 = g2).

(** [w'] differs from [w] at most in the object behind [r], in the entry of
    guild [g], which may have been deleted, and in what is logged. *)
Definition confined (g : Z) (r : nat) (w w' : Cog) : Prop :=
  length (players w') = length (players w)
  /\ (forall r', r' <> r -> players w' !! r' = players w !! r')
  /\ (forall g', g' <> g -> audio_players w' !! g' = audio_players w !! g')
  /\ (audio_players w' !! g = audio_players w !! g \/ audio_players w' !! g = None)
  /\ bot_user_id w' = bot_user_id w.

(** A computation that relates every state to the state it leaves. *)
Definition keeps {A} (R : Cog -> Cog -> Prop) (m : M A) : Prop :=
  forall w, R w (m w).2.

(** A channel of guild 2, and the cog after a join in each of two guilds. *)
Definition channel_b : VoiceChannel := mkChannel 20 2 [7; 8].

Definition cog_two_guilds : Cog :=
  cog_run (H := described)
    [OnCommand DoJoin 1 (Some channel_a); OnCommand DoJoin 2 (Some channel_b)]
    (empty_cog 7).


(** [isinstance] of the error for one of the three classes that
    [cog_command_error] tests before it reaches l.178. *)
Definition handled (error : Error) : bool :=
  issubclass (err_class error) CommandNotFound
  || issubclass (err_class error) UserInputError
  || issubclass (err_class error) YoutubeDLError.

(** A [MissingRequiredArgument] as the dispatcher raises it. *)
Definition missing_argument : Error :=
  mkError MissingRequiredArgument "args is a required argument that is missing.".

(** A connected player whose driver task has completed. *)
Definition cog_driver_done : Cog :=
  mkCog 7 {[ 1 := 0%nat ]} [playing_player] [(0%nat, true)] [] [].

(** A player that refuses to leave: it has no voice client. *)
Definition cog_queue_only : Cog :=
  mkCog 7 {[ 1 := 0%nat ]}
    [set_song_queue [song_a; song_b] new_audio_player] [] [] [].

(** The songs a coroutine hands to the usage recorder, in program order. *)
Fixpoint inserts_of (pc : list Instr) : list Song :=
  match pc with
  | [] => []
  | IInsertData s :: pc' => s :: inserts_of pc'
  | _ :: pc' => inserts_of pc'
  end.

(** The replies a coroutine sends, in program order. *)
Fixpoint sends_of (pc : list Instr) : list Reply :=
  match pc with
  | [] => []
  | ISend r :: pc' => r :: sends_of pc'
  | _ :: pc' => sends_of pc'
  end.

(** The database is as [db] but for its reachability and the records that
    the coroutine [pc] may still add. *)
Definition recorder_idle (db : UsageDatabase) (st : PlayState) : Prop :=
  inserts_of (ps_pc st) = []
  /\ db_rows (ps_usage_db st) = db_rows db
  /\ db_failure_log (ps_usage_db st) = db_failure_log db.

(** What has been sent, followed by what the coroutine will still send, is
    what the coroutine set out to send, unless an exception cut it short. *)
Definition sends_agree (all : list Reply) (st : PlayState) : Prop :=
  (ps_sent st ++ sends_of (ps_pc st)) `prefix_of` all.

(** ** Classifying arguments *)

(** The predicates of the absent [utils] module that [_play] and [stats]
    apply to their arguments. *)
Class Classifiers := {
  extract_discord_user_id : string -> option Z;
  is_spotify_album_or_playlist : string -> bool;
  is_spotify_track : string -> bool;
  is_yt_playlist : string -> bool;
  is_yt_video : string -> bool
}.

(** The method of the song factory that [_play] calls (l.477-487). *)
Inductive FactoryCall :=
  | CreateYtPlaylist (args : string)
  | CreateSpotifyCollection (args : string)
  | CreateSongFromSpotifyTrack (args : string)
  | CreateSongFromYtVideo (args : string) (is_yt_search : bool).

Definition factory_call `{Classifiers} (args : string) : FactoryCall :=
  if is_yt_playlist args then CreateYtPlaylist args
  else if is_spotify_album_or_playlist args then CreateSpotifyCollection args
  else if is_spotify_track args then CreateSongFromSpotifyTrack args
  else CreateSongFromYtVideo args (negb (is_yt_video args)).

(** Whether the call fills [playlist] rather than [song]. *)
Definition fills_playlist (c : FactoryCall) : bool :=
  match c with
  | CreateYtPlaylist _ | CreateSpotifyCollection _ => true
  | CreateSongFromSpotifyTrack _ | CreateSongFromYtVideo _ _ => false
  end.

(** The keyword arguments [stats] builds for [create_stats]; a key that is
    not set is [None].  ["user"] holds the id handed to [get_member]. *)
Record StatsKwargs := mkStatsKwargs {
  kw_user : option Z;
  kw_spotify_args : option string;
  kw_ytdl_args : option string;
  kw_is_yt_search : option bool
}.

(** How [stats] ends up to l.395: with one of its three refusals, or with
    the keyword arguments for [create_stats]. *)
Inductive StatsRequest :=
  | StatsNotEnabled                  (* l.364 *)
  | StatsNoSpotifyCollection         (* l.378 *)
  | StatsNoYtPlaylist                (* l.382 *)
  | StatsCreate (kwargs : StatsKwargs).

(** l.369-374: the user, if the first argument names one, and the index of
    the argument to look at next.  [if user_id:] is false for [None] and
    for [0]. *)
Definition stats_user `{Classifiers} (args : list string) : option Z * nat :=
  match args with
  | [] => (None, 0%nat)
  | a0 :: _ =>
      match extract_discord_user_id a0 with
      | Some user_id => if user_id =? 0 then (None, 0%nat) else (Some user_id, 1%nat)
      | None => (None, 0%nat)
      end
  end.

(** [stats] (l.359-395), up to the call of the stats factory. *)
Definition stats_request `{Classifiers} (enable_usage_database : bool)
    (args : list string) : StatsRequest :=
  if negb enable_usage_database then StatsNotEnabled
  else
    let '(user, index) := stats_user args in
    match args !! index with
    | None => StatsCreate (mkStatsKwargs user None None None)
    | Some a =>
        if is_spotify_album_or_playlist a then StatsNoSpotifyCollection
        else if is_yt_playlist a && negb (is_yt_video a) then StatsNoYtPlaylist
        else if is_spotify_track a then
          StatsCreate (mkStatsKwargs user (Some a) None (Some true))
        else if is_yt_video a then
          StatsCreate (mkStatsKwargs user None (Some a) (Some false))
        else
          StatsCreate (mkStatsKwargs user None (Some (join_args (drop index args)))
                         (Some true))
    end.

(** Whether [pat] occurs in [s]. *)
Definition occurs (pat s : string) : bool :=
  match String.index 0 pat s with
  | Some _ => true
  | None => false
  end.

(** Classifiers for the sample inputs: links are told by a fragment of
    their text, a mention is the text ["@"] followed by digits. *)
Definition sample_classifiers : Classifiers :=
  {| extract_discord_user_id := fun s =>
       match s with
       | String "@"%char s' => decimal s'
       | _ => None
       end;
     is_spotify_album_or_playlist := fun s =>
       occurs "spotify.com/album" s || occurs "spotify.com/playlist" s;
     is_spotify_track := occurs "spotify.com/track";
     is_yt_playlist := occurs "list=";
     is_yt_video := occurs "watch?v=" |}.

(** A YouTube link to a video inside a playlist. *)
Definition video_in_playlist : string :=
  "https://www.youtube.com/watch?v=abc&list=xyz".

(** ** Commands on the queue and the loop flag *)

(** Further methods of the absent [AudioPlayer] class. *)
Class QueueMethods := {
  ap_clear_song_queue : AudioPlayer -> AudioPlayer;
  ap_shuffle_song_queue : AudioPlayer -> AudioPlayer;
  ap_flip_is_queue_looping : AudioPlayer -> AudioPlayer
}.

(** What the commands below pass to [ctx.send]; an embed is given by what
    it is made from. *)
Inductive Notice :=
  | NNoSongInQueue                            (* l.224 *)
  | NQueueCleared                             (* l.227 *)
  | NQueueLooping                             (* l.326, 447 *)
  | NNothingLooping                           (* l.328 *)
  | NNothingPlaying                           (* l.337, the text of RNothingPlaying *)
  | NNowEmbed (s : Song)                      (* l.339 *)
  | NQueueEmpty                               (* l.346, 355 *)
  | NQueueEmbed (page : Z) (q : list Song)    (* l.348 *)
  | NSlapped                                  (* l.437 *)
  | NLoopStopped.                             (* l.449 *)

(** These commands run over the cog together with the notices sent. *)
Definition Told : Type := list Notice * Cog.

Definition MT (A : Type) : Type := Told -> Res A * Told.

Global Instance MT_ret : MRet MT := fun _ a s => (Ret a, s).
Global Instance MT_bind : MBind MT := fun _ _ k m s =>
  match m s with
  | (Ret a, s') => k a s'
  | (Raise e, s') => (Raise e, s')
  end.

(** A computation on the cog, run on the cog of the pair. *)
Definition on_cog {A} (m : M A) : MT A := fun s =>
  match m s.2 with
  | (r, w') => (r, (s.1, w'))
  end.

(** [await ctx.send(...)] of a notice. *)
Definition tell (n : Notice) : MT unit := fun s => (Ret tt, (s.1 ++ [n], s.2)).

(** [clear] (l.219-227) *)
Definition clear `{QueueMethods} (ctx : Context) : MT unit :=
  ap ← on_cog (read_player (ctx_audio_player ctx));
  match song_queue ap with
  | [] => tell NNoSongInQueue
  | _ :: _ =>
      on_cog (write_player (ctx_audio_player ctx) (ap_clear_song_queue ap));;
      tell NQueueCleared
  end.

(** [now] (l.332-339); [create_embed] on a missing current song raises
    [AttributeError]. *)
Definition now (ctx : Context) : MT unit :=
  ap ← on_cog (read_player (ctx_audio_player ctx));
  if negb (is_currently_playing ap) then tell NNothingPlaying
  else
    match current_song ap with
    | Some s => tell (NNowEmbed s)
    | None => on_cog (raise AttributeError)
    end.

(** [queue] (l.341-348) *)
Definition queue (ctx : Context) (page : Z) : MT unit :=
  ap ← on_cog (read_player (ctx_audio_player ctx));
  match song_queue ap with
  | [] => tell NQueueEmpty
  | _ :: _ => tell (NQueueEmbed page (song_queue ap))
  end.

(** [shuffle] (l.350-357) *)
Definition shuffle `{QueueMethods} (ctx : Context) : MT unit :=
  ap ← on_cog (read_player (ctx_audio_player ctx));
  match song_queue ap with
  | [] => tell NQueueEmpty
  | _ :: _ =>
      on_cog (write_player (ctx_audio_player ctx) (ap_shuffle_song_queue ap))
  end.

(** [status] (l.321-330); [ctx.invoke(self.queue)] takes the default page. *)
Definition status (ctx : Context) : MT unit :=
  ap ← on_cog (read_player (ctx_audio_player ctx));
  tell (if is_queue_looping ap then NQueueLooping else NNothingLooping);;
  now ctx;;
  queue ctx 1.

(** [slap] (l.434-437) *)
Definition slap (ctx : Context) : MT unit := tell NSlapped.

(** [loop] (l.439-449) *)
Definition loop `{QueueMethods} (ctx : Context) : MT unit :=
  ap ← on_cog (read_player (ctx_audio_player ctx));
  on_cog (write_player (ctx_audio_player ctx) (ap_flip_is_queue_looping ap));;
  ap' ← on_cog (read_player (ctx_audio_player ctx));
  if is_queue_looping ap' then tell NQueueLooping else tell NLoopStopped.

(** The commands that only report. *)
Inductive Report := ReportNow | ReportQueue (page : Z) | ReportStatus | ReportSlap.

Definition report (c : Report) : Context -> MT unit :=
  match c with
  | ReportNow => now
  | ReportQueue page => fun ctx => queue ctx page
  | ReportStatus => status
  | ReportSlap => slap
  end.

(** The commands that change the queue or the loop flag. *)
Inductive QueueChange := ChangeClear | ChangeShuffle | ChangeLoop.

Definition queue_change `{QueueMethods} (c : QueueChange) : Context -> MT unit :=
  match c with
  | ChangeClear => clear
  | ChangeShuffle => shuffle
  | ChangeLoop => loop
  end.

(** Queue methods as their names say, for the sample inputs: the flip
    negates the flag, the clear empties the queue, the shuffle reverses. *)
Definition sample_queue_methods : QueueMethods :=
  {| ap_clear_song_queue := set_song_queue [];
     ap_shuffle_song_queue := fun ap => set_song_queue (rev (song_queue ap)) ap;
     ap_flip_is_queue_looping := fun ap =>
       {| voice_client := voice_client ap;
          audio_player_task := audio_player_task ap;
          is_currently_playing := is_currently_playing ap;
          current_song := current_song ap;
          song_queue := song_queue ap;
          prev_songs := prev_songs ap;
          is_queue_looping := negb (is_queue_looping ap) |} |}.

(** ** Unloading *)

(** [cog_unload] (l.106-110): [leave] on every registered player.  The
    calls are gathered; they are made here one after the other, in the
    order in which the registry lists its entries. *)
Definition leave_all `{Collaborators} (refs : list nat) : M unit :=
  foldr (fun r rest => call_method (CLeave r) r ap_leave;; rest) (mret tt) refs.

Definition cog_unload `{Collaborators} : M unit :=
  w ← get_cog;
  leave_all (map_to_list (audio_players w)).*2.

(** * Proofs *)

(** ** The handler monad *)

Lemma bind_ret {A B} (m : M A) (k : A -> M B) w a w' :
  m w = (Ret a, w') -> (m ≫= k) w = k a w'.
Proof. intros E. unfold mbind, M_bind. by rewrite E. Qed.

Lemma bind_raise {A B} (m : M A) (k : A -> M B) w e w' :
  m w = (Raise e, w') -> (m ≫= k) w = (Raise e, w').
Proof. intros E. unfold mbind, M_bind. by rewrite E. Qed.

Lemma read_player_eq r w ap :
  players w !! r = Some ap -> read_player r w = (Ret ap, w).
Proof. intros E. unfold read_player. by rewrite E. Qed.

Lemma call_method_eq {A} c r (m : AudioPlayer -> A * AudioPlayer) w ap :
  players w !! r = Some ap ->
  call_method c r m w = (Ret (m ap).1, after_call c r (m ap).2 w).
Proof.
  intros E. unfold call_method.
  erewrite bind_ret by (by apply read_player_eq). reflexivity.
Qed.

Lemma after_call_lookup c r ap ap' w :
  players w !! r = Some ap -> players (after_call c r ap' w) !! r = Some ap'.
Proof.
  intros E. simpl. apply list_lookup_insert_eq. by eapply lookup_lt_Some.
Qed.

Lemma get_audio_player_known g r w :
  audio_players w !! g = Some r -> get_audio_player g w = (Ret r, w).
Proof.
  intros E. unfold get_audio_player.
  erewrite bind_ret by reflexivity. by rewrite E.
Qed.

Lemma get_audio_player_new g w :
  audio_players w !! g = None ->
  get_audio_player g w =
    (Ret (length (players w)),
     with_audio_players (<[g := length (players w)]> (audio_players w))
       (with_players (players w ++ [new_audio_player]) w)).
Proof.
  intros E. unfold get_audio_player.
  erewrite bind_ret by reflexivity. by rewrite E.
Qed.

(** ** Control commands, one equation each *)

Lemma pause_eq `{Collaborators} ctx w ap :
  players w !! ctx_audio_player ctx = Some ap ->
  pause ctx w =
    if negb (is_currently_playing ap) then send RNothingToPause w
    else
      let w1 := after_call (CPause (ctx_audio_player ctx)) (ctx_audio_player ctx)
                  (ap_pause ap).2 w in
      if negb (ap_pause ap).1 then send RAlreadyPaused w1
      else send (RPaused (current_song (ap_pause ap).2)) w1.
Proof.
  intros E. unfold pause. erewrite bind_ret by (by apply read_player_eq).
  destruct (is_currently_playing ap); simpl; [|done].
  erewrite bind_ret by (by apply call_method_eq).
  destruct (ap_pause ap).1; simpl; [|done].
  erewrite bind_ret by (apply read_player_eq; by eapply after_call_lookup). done.
Qed.

Lemma resume_eq `{Collaborators} ctx w ap :
  players w !! ctx_audio_player ctx = Some ap ->
  resume ctx w =
    if negb (is_currently_playing ap) then send RNothingPlaying w
    else
      let w1 := after_call (CResume (ctx_audio_player ctx)) (ctx_audio_player ctx)
                  (ap_resume ap).2 w in
      if negb (ap_resume ap).1 then send RAlreadyPlaying w1
      else send (RResumed (current_song (ap_resume ap).2)) w1.
Proof.
  intros E. unfold resume. erewrite bind_ret by (by apply read_player_eq).
  destruct (is_currently_playing ap); simpl; [|done].
  erewrite bind_ret by (by apply call_method_eq).
  destruct (ap_resume ap).1; simpl; [|done].
  erewrite bind_ret by (apply read_player_eq; by eapply after_call_lookup). done.
Qed.

Lemma stop_eq `{Collaborators} ctx w ap :
  players w !! ctx_audio_player ctx = Some ap ->
  stop ctx w =
    let w1 := after_call (CStop (ctx_audio_player ctx)) (ctx_audio_player ctx)
                (ap_stop ap).2 w in
    if negb (ap_stop ap).1 then send RNothingPlaying w1 else send RStopped w1.
Proof.
  intros E. unfold stop. erewrite bind_ret by (by apply call_method_eq).
  simpl. by destruct (ap_stop ap).1.
Qed.

Lemma skip_eq `{Collaborators} ctx w ap :
  players w !! ctx_audio_player ctx = Some ap ->
  skip ctx w =
    let w1 := after_call (CSkip (ctx_audio_player ctx) false) (ctx_audio_player ctx)
                (ap_skip false ap).2 w in
    if negb (ap_skip false ap).1 then send RNothingPlaying w1 else (Ret tt, w1).
Proof.
  intros E. unfold skip. erewrite bind_ret by (by apply call_method_eq).
  simpl. by destruct (ap_skip false ap).1.
Qed.

Lemma back_eq `{Collaborators} ctx w ap :
  players w !! ctx_audio_player ctx = Some ap ->
  back ctx w =
    match prev_songs ap with
    | [] => send RNoPreviousSong w
    | _ :: _ =>
        let w1 := after_call (CSkip (ctx_audio_player ctx) true) (ctx_audio_player ctx)
                    (ap_skip true ap).2 w in
        if negb (ap_skip true ap).1 then send RNothingPlaying w1 else (Ret tt, w1)
    end.
Proof.
  intros E. unfold back. erewrite bind_ret by (by apply read_player_eq).
  destruct (prev_songs ap); [done|].
  erewrite bind_ret by (by apply call_method_eq).
  simpl. by destruct (ap_skip true ap).1.
Qed.

Ltac close_case :=
  repeat split; eauto; try (repeat constructor; fail);
  try (eexists; split; [|reflexivity]; reflexivity).

(** C4, as amended.  A control command never raises: it returns, and the
    registry is as before.  When the handler's own test rejects the command
    (pause or resume with nothing playing, back with an empty history) no
    method of the player is called, the player is untouched and exactly one
    failure reply is sent.  Otherwise the player's method is called exactly
    once, even when it then reports failure, and its boolean result selects
    between one failure reply and no failure reply. *)
Theorem control_reports_failure_by_reply `{Collaborators}
    (c : Control) (ctx : Context) (w : Cog) (ap : AudioPlayer) :
  players w !! ctx_audio_player ctx = Some ap ->
  let r := ctx_audio_player ctx in
  let out := control c ctx w in
  out.1 = Ret tt /\
  audio_players out.2 = audio_players w /\
  (if rejected_by_handler c ap then
     calls out.2 = calls w /\ players out.2 = players w /\
     exists m, is_failure_reply m = true /\ new_replies w out.2 = [m]
   else
     calls out.2 = calls w ++ [call_of c r] /\
     players out.2 = <[r := (method_of c ap).2]> (players w) /\
     if (method_of c ap).1
     then Forall (fun m => is_failure_reply m = false) (new_replies w out.2)
     else exists m, is_failure_reply m = true /\ new_replies w out.2 = [m]).
Proof.
  intros Hap r out. subst r out. unfold new_replies.
  destruct c; simpl.
  - rewrite (pause_eq _ _ _ Hap).
    destruct (is_currently_playing ap); simpl.
    + destruct (ap_pause ap).1; simpl; rewrite drop_app_length; close_case.
    + rewrite drop_app_length. close_case.
  - rewrite (resume_eq _ _ _ Hap).
    destruct (is_currently_playing ap); simpl.
    + destruct (ap_resume ap).1; simpl; rewrite drop_app_length; close_case.
    + rewrite drop_app_length. close_case.
  - rewrite (stop_eq _ _ _ Hap).
    destruct (ap_stop ap).1; simpl; rewrite drop_app_length; close_case.
  - rewrite (skip_eq _ _ _ Hap).
    destruct (ap_skip false ap).1; simpl.
    + rewrite drop_all. close_case.
    + rewrite drop_app_length; close_case.
  - rewrite (back_eq _ _ _ Hap).
    destruct (prev_songs ap) eqn:Ep; simpl.
    + rewrite drop_app_length. close_case.
    + destruct (ap_skip true ap).1; simpl.
      * rewrite drop_all. close_case.
      * rewrite drop_app_length; close_case.
Qed.

(** [stop] on an idle player, with the collaborators as the spec describes
    them: the player's [stop] is called and its [False] becomes the reply. *)
Lemma control_reports_failure_by_reply_witness :
  let out := control (H := described) Stop ctx_1 cog_idle in
  out.1 = Ret tt /\ calls out.2 = [CStop 0] /\ sent out.2 = [RNothingPlaying].
Proof.
  pose proof (control_reports_failure_by_reply (H := described) Stop ctx_1 cog_idle
                new_audio_player eq_refl) as (Hret & _ & Hcalls & _ & _).
  split; [exact Hret|]. split; [exact Hcalls|]. reflexivity.
Defined.

(** C4, as stated, fails: [stop] with nothing playing answers with the
    failure reply after it has called the player's [stop]. *)
Lemma stop_failure_calls_player :
  ~ failure_makes_no_call (H := described) Stop ctx_1 cog_idle.
Proof.
  unfold failure_makes_no_call. intros Hno.
  assert (calls (control (H := described) Stop ctx_1 cog_idle).2 = calls cog_idle) as E.
  { apply Hno. exists RNothingPlaying. split; reflexivity. }
  vm_compute in E. discriminate E.
Qed.

(** ** The error handler *)

Lemma cog_command_error_sends (error : Error) (w : Cog) :
  new_replies w (cog_command_error error w).2 = []
  \/ new_replies w (cog_command_error error w).2 = [RUnknownCommand]
  \/ new_replies w (cog_command_error error w).2 = [RBadUserInput (err_str error)]
  \/ new_replies w (cog_command_error error w).2 = [RYoutubeDLError (err_str error)].
Proof.
  unfold cog_command_error, new_replies, isinstance, lift_res, mbind, M_bind, send,
    modify. simpl.
  destruct (issubclass (err_class error) CommandNotFound); simpl.
  { right; left. by rewrite drop_app_length. }
  destruct (issubclass (err_class error) UserInputError); simpl.
  { right; right; left. by rewrite drop_app_length. }
  destruct (issubclass (err_class error) YoutubeDLError); simpl.
  { right; right; right. by rewrite drop_app_length. }
  left. by rewrite drop_all.
Qed.

(** C8.  For an error that is no [CommandNotFound], [UserInputError] or
    [YoutubeDLError], the handler reaches [isinstance(error,
    'SpotifyException')], which raises [TypeError]: the handler ends with
    that exception, having sent nothing, so that neither the Spotify reply
    nor the generic fallback reply is sent, and l.187 is not reached. *)
Theorem cog_command_error_raises_type_error (error : Error) (w : Cog) :
  issubclass (err_class error) CommandNotFound = false ->
  issubclass (err_class error) UserInputError = false ->
  issubclass (err_class error) YoutubeDLError = false ->
  cog_command_error error w = (Raise TypeError, w)
  /\ (RSpotifyError ∉ new_replies w (cog_command_error error w).2)
  /\ (RUnexpectedError (err_str error) ∉ new_replies w (cog_command_error error w).2).
Proof.
  intros H1 H2 H3.
  assert (cog_command_error error w = (Raise TypeError, w)) as E.
  { unfold cog_command_error, isinstance, lift_res, mbind, M_bind. simpl.
    by rewrite H1, H2, H3. }
  rewrite E. unfold new_replies. simpl. rewrite drop_all.
  split; [done|]. split; apply not_elem_of_nil.
Qed.

(** A [SpotifyException] itself is such an error. *)
Lemma cog_command_error_raises_type_error_witness :
  cog_command_error (mkError SpotifyException "bad link") cog_idle
  = (Raise TypeError, cog_idle).
Proof.
  apply (cog_command_error_raises_type_error
           (mkError SpotifyException "bad link") cog_idle); reflexivity.
Defined.

(** ** The voice-state listener and [leave] *)

Lemma on_voice_state_update_leaves `{Collaborators} (w : Cog) (member_id : Z)
    (ch : VoiceChannel) (r : nat) (ap : AudioPlayer) (vc : VoiceClient) :
  member_id <> bot_user_id w ->
  audio_players w !! channel_guild_id ch = Some r ->
  players w !! r = Some ap ->
  voice_client ap = Some vc ->
  channel_id ch = channel_id (vc_channel vc) ->
  (length (channel_voice_states ch) <= 1)%nat ->
  on_voice_state_update member_id (Some ch) None w =
    (Ret tt, after_call (CLeave r) r (ap_leave ap).2 w).
Proof.
  intros Hm Hg Hr Hv Hc Hl. unfold on_voice_state_update.
  erewrite bind_ret by reflexivity.
  apply Z.eqb_neq in Hm. rewrite Hm. simpl.
  erewrite bind_ret by (by apply get_audio_player_known).
  erewrite bind_ret by (by apply read_player_eq).
  rewrite Hv, Hc, Z.eqb_refl. apply Nat.leb_le in Hl. rewrite Hl. simpl.
  erewrite bind_ret by (by apply call_method_eq). reflexivity.
Qed.

Lemma leave_eq `{Collaborators} ctx w ap :
  players w !! ctx_audio_player ctx = Some ap ->
  leave ctx w =
    let w1 := after_call (CLeave (ctx_audio_player ctx)) (ctx_audio_player ctx)
                (ap_leave ap).2 w in
    if negb (ap_leave ap).1 then send RNotConnected w1
    else match audio_players w !! ctx_guild_id ctx with
         | Some _ =>
             (Ret tt, with_audio_players (delete (ctx_guild_id ctx) (audio_players w)) w1)
         | None => (Raise KeyError, w1)
         end.
Proof.
  intros E. unfold leave. erewrite bind_ret by (by apply call_method_eq).
  simpl. destruct (ap_leave ap).1; simpl; [|done].
  erewrite bind_ret by reflexivity. simpl.
  by destruct (audio_players w !! ctx_guild_id ctx).
Qed.

(** The listener never takes an entry out of the registry. *)
Lemma on_voice_state_update_keeps_entries `{Collaborators} (w : Cog) (member_id : Z)
    (before after : VoiceState) (g : Z) (r : nat) :
  audio_players w !! g = Some r ->
  audio_players (on_voice_state_update member_id before after w).2 !! g = Some r.
Proof.
  intros Hg. unfold on_voice_state_update.
  erewrite bind_ret by reflexivity.
  destruct (negb (member_id =? bot_user_id w) && bool_decide (after = None)); [|done].
  destruct before as [ch|]; [|done].
  destruct (audio_players w !! channel_guild_id ch) as [r'|] eqn:Hch.
  - erewrite bind_ret by (by apply get_audio_player_known).
    unfold read_player, mbind, M_bind.
    destruct (players w !! r') as [ap|] eqn:Hap; [|done].
    destruct (voice_client ap) as [vc|]; [|done].
    destruct (_ && _); [|done].
    fold (read_player r'). unfold call_method.
    erewrite bind_ret by (by apply read_player_eq). simpl. done.
  - erewrite bind_ret by (by apply get_audio_player_new).
    assert (audio_players
              (with_audio_players (<[channel_guild_id ch := length (players w)]> (audio_players w))
                 (with_players (players w ++ [new_audio_player]) w)) !! g = Some r) as Hg'.
    { simpl. rewrite lookup_insert_ne; [done|]. intros Heq. rewrite Heq in Hch. congruence. }
    revert Hg'. generalize (with_audio_players (<[channel_guild_id ch := length (players w)]> (audio_players w))
                 (with_players (players w ++ [new_audio_player]) w)). intros w2 Hg2.
    unfold read_player, mbind, M_bind.
    destruct (players w2 !! length (players w)) as [ap|] eqn:Hap; [|done].
    destruct (voice_client ap) as [vc|]; [|done].
    destruct (_ && _); [|done].
    unfold call_method, read_player, mbind, M_bind. rewrite Hap. simpl. done.
Qed.

(** C7.  When a member other than the bot leaves a channel (no channel
    after), the player of that channel's guild is connected to the same
    channel, and at most one participant is left in it, the listener calls
    that player's [leave]. *)
Theorem voice_update_triggers_leave `{Collaborators} (w : Cog) (member_id : Z)
    (ch : VoiceChannel) (r : nat) (ap : AudioPlayer) (vc : VoiceClient) :
  member_id <> bot_user_id w ->
  audio_players w !! channel_guild_id ch = Some r ->
  players w !! r = Some ap ->
  voice_client ap = Some vc ->
  channel_id ch = channel_id (vc_channel vc) ->
  (length (channel_voice_states ch) <= 1)%nat ->
  let out := on_voice_state_update member_id (Some ch) None w in
  out.1 = Ret tt
  /\ calls out.2 = calls w ++ [CLeave r]
  /\ players out.2 !! r = Some (ap_leave ap).2.
Proof.
  intros Hm Hg Hr Hv Hc Hl out. subst out.
  rewrite (on_voice_state_update_leaves w member_id ch r ap vc) by assumption.
  split; [done|]. split; [done|]. by eapply after_call_lookup.
Qed.

(** Member 42 leaves [channel_a], where the player of guild 1 is connected
    and only the bot remains. *)
Lemma voice_update_triggers_leave_witness :
  let out := on_voice_state_update (H := described) 42 (Some channel_a) None cog_playing in
  out.1 = Ret tt
  /\ calls out.2 = [CLeave 0]
  /\ players out.2 !! 0%nat = Some new_audio_player.
Proof.
  apply (voice_update_triggers_leave (H := described) cog_playing 42 channel_a 0
           playing_player (mkVoiceClient channel_a false)).
  - discriminate.
  - reflexivity.
  - reflexivity.
  - reflexivity.
  - reflexivity.
  - simpl. lia.
Defined.

(** C9.  For a registered guild: the [leave] command, when the player's
    [leave] succeeds, deletes the guild's entry from [audio_players]; the
    listener, when it makes the player leave, changes the object behind the
    entry and leaves [audio_players] as it was, the guild's entry included. *)
Theorem leave_deletes_entry_listener_keeps_it `{Collaborators} (w : Cog) (g : Z)
    (r : nat) (ap : AudioPlayer) (author : option VoiceChannel)
    (member_id : Z) (ch : VoiceChannel) (vc : VoiceClient) :
  audio_players w !! g = Some r ->
  players w !! r = Some ap ->
  ((ap_leave ap).1 = true ->
   let out := leave (mkContext g author r) w in
   out.1 = Ret tt
   /\ audio_players out.2 = delete g (audio_players w)
   /\ audio_players out.2 !! g = None)
  /\
  (member_id <> bot_user_id w ->
   channel_guild_id ch = g ->
   voice_client ap = Some vc ->
   channel_id ch = channel_id (vc_channel vc) ->
   (length (channel_voice_states ch) <= 1)%nat ->
   let out := on_voice_state_update member_id (Some ch) None w in
   calls out.2 = calls w ++ [CLeave r]
   /\ players out.2 !! r = Some (ap_leave ap).2
   /\ audio_players out.2 = audio_players w
   /\ audio_players out.2 !! g = Some r).
Proof.
  intros Hg Hr. split.
  - intros Hok out. subst out.
    rewrite (leave_eq (mkContext g author r) w ap Hr). simpl.
    rewrite Hok, Hg. simpl. split; [done|]. split; [done|]. apply lookup_delete_eq.
  - intros Hm Hch Hv Hc Hl out. subst out g.
    rewrite (on_voice_state_update_leaves w member_id ch r ap vc) by assumption.
    split; [done|]. split; [by eapply after_call_lookup|]. split; done.
Qed.

(** Guild 1 of [cog_playing]: after the command the entry is gone, after the
    listener it still points at object 0, which has been reset. *)
Lemma leave_deletes_entry_listener_keeps_it_witness :
  audio_players (leave (H := described) ctx_1 cog_playing).2 !! 1 = None
  /\ audio_players
       (on_voice_state_update (H := described) 42 (Some channel_a) None cog_playing).2
       !! 1 = Some 0%nat
  /\ players
       (on_voice_state_update (H := described) 42 (Some channel_a) None cog_playing).2
       !! 0%nat = Some new_audio_player.
Proof.
  destruct (leave_deletes_entry_listener_keeps_it (H := described) cog_playing 1 0
              playing_player (Some channel_a) 42 channel_a
              (mkVoiceClient channel_a false) eq_refl eq_refl) as [Hcmd Hauto].
  split.
  - apply (Hcmd eq_refl).
  - assert ((42 : Z) <> bot_user_id cog_playing) as Hm by discriminate.
    assert (length (channel_voice_states channel_a) <= 1)%nat as Hl by (simpl; lia).
    destruct (Hauto Hm eq_refl eq_refl eq_refl Hl) as (_ & Hp & _ & Hreg).
    split; [exact Hreg | exact Hp].
Defined.

(** ** [remove] *)

(** C10.  With songs in the queue, [remove] without arguments raises
    [IndexError] at [args[0]]: nothing is sent and no method is called.  With
    a first argument that [is_int] accepts and [int] reads as [index], the
    player's removal is called with the 0-based index [index - 1], and a
    missing result is reported with the 1-based [index]. *)
Theorem remove_index_error_and_offset `{Collaborators} (ctx : Context) (w : Cog)
    (ap : AudioPlayer) (a0 : string) (rest : list string) (index : Z) :
  players w !! ctx_audio_player ctx = Some ap ->
  song_queue ap <> [] ->
  remove ctx [] w = (Raise IndexError, w)
  /\ (is_int a0 = true -> py_int a0 = Some index ->
      let r := ctx_audio_player ctx in
      let out := remove ctx (a0 :: rest) w in
      out.1 = Ret tt
      /\ calls out.2 = calls w ++ [CRemoveIndex r (index - 1)]
      /\ players out.2 = <[r := (ap_remove_index (index - 1) ap).2]> (players w)
      /\ new_replies w out.2 =
           [match (ap_remove_index (index - 1) ap).1 with
            | None => RInvalidIndex index
            | Some s => RRemoved s
            end]).
Proof.
  intros Hap Hq. split.
  - unfold remove. erewrite bind_ret by (by apply read_player_eq).
    destruct (song_queue ap); [done|]. reflexivity.
  - intros Hint Hpy r out. subst r out. unfold remove, new_replies.
    erewrite bind_ret by (by apply read_player_eq).
    destruct (song_queue ap) eqn:Eq; [done|]. rewrite Hint, Hpy.
    erewrite bind_ret by (by apply call_method_eq).
    destruct (ap_remove_index (index - 1) ap).1; simpl;
      rewrite drop_app_length; done.
Qed.

(** [remove] and [remove 2] on the queue [song_b; song_c]: the second
    removes the entry at 0-based index 1, [song_c]. *)
Lemma remove_index_error_and_offset_witness :
  remove (H := described) ctx_1 [] cog_playing = (Raise IndexError, cog_playing)
  /\ calls (remove (H := described) ctx_1 ["2"] cog_playing).2 = [CRemoveIndex 0 1]
  /\ sent (remove (H := described) ctx_1 ["2"] cog_playing).2 = [RRemoved song_c].
Proof.
  assert (song_queue playing_player <> []) as Hq by discriminate.
  destruct (remove_index_error_and_offset (H := described) ctx_1 cog_playing
              playing_player "2" [] 2 eq_refl Hq) as [Hnone Hnum].
  split; [exact Hnone|].
  destruct (Hnum eq_refl eq_refl) as (_ & Hcalls & _ & _).
  split; [exact Hcalls | reflexivity].
Defined.

(** ** [join] and the driver task *)

Lemma start_audio_player_eq r w ap :
  players w !! r = Some ap ->
  start_audio_player r w = (Ret tt, driver_started r ap w).
Proof.
  intros E. unfold start_audio_player.
  erewrite bind_ret by (by apply read_player_eq).
  erewrite bind_ret by reflexivity. reflexivity.
Qed.

Lemma join_eq ctx w ap destination :
  ctx_author_channel ctx = Some destination ->
  players w !! ctx_audio_player ctx = Some ap ->
  join ctx w =
    let r := ctx_audio_player ctx in
    let ap1 := connected_to destination ap in
    let w1 := after_call (connect_call destination ap) r ap1 w in
    match audio_player_task ap with
    | None => (Ret tt, driver_started r ap1 w1)
    | Some t =>
        if task_done w t then (Ret tt, driver_started r ap1 w1) else (Ret tt, w1)
    end.
Proof.
  intros Hd Hap. unfold join. rewrite Hd.
  erewrite bind_ret by (by apply read_player_eq).
  assert (forall w', (match voice_client ap with
            | Some vc =>
                log_call (CMoveTo destination);;
                write_player (ctx_audio_player ctx)
                  (set_voice_client (Some (mkVoiceClient destination (vc_paused vc))) ap)
            | None =>
                log_call (CConnect destination);;
                write_player (ctx_audio_player ctx)
                  (set_voice_client (Some (mkVoiceClient destination false)) ap)
            end) w' =
          (Ret tt, after_call (connect_call destination ap) (ctx_audio_player ctx)
                     (connected_to destination ap) w')) as Hconn.
  { intros w'. unfold connect_call, connected_to. by destruct (voice_client ap). }
  erewrite bind_ret by apply Hconn.
  assert (players (after_call (connect_call destination ap) (ctx_audio_player ctx)
                     (connected_to destination ap) w) !! ctx_audio_player ctx
          = Some (connected_to destination ap)) as Hap1 by (by eapply after_call_lookup).
  erewrite bind_ret by (by apply read_player_eq).
  erewrite bind_ret by reflexivity.
  assert (audio_player_task (connected_to destination ap) = audio_player_task ap) as ->.
  { unfold connected_to. by destruct (voice_client ap). }
  simpl. destruct (audio_player_task ap) as [t|].
  - change (task_done (after_call (connect_call destination ap) (ctx_audio_player ctx)
                         (connected_to destination ap) w) t) with (task_done w t).
    destruct (task_done w t); [|done]. by apply start_audio_player_eq.
  - by apply start_audio_player_eq.
Qed.

Lemma connected_to_task destination ap :
  audio_player_task (connected_to destination ap) = audio_player_task ap.
Proof. unfold connected_to. by destruct (voice_client ap). Qed.

Lemma drivers_held_started r ap ap1 c w :
  players w !! r = Some ap ->
  audio_player_task ap1 = audio_player_task ap ->
  (forall t, audio_player_task ap = Some t -> task_done w t = true) ->
  drivers_held w ->
  drivers_held (driver_started r ap1 (after_call c r ap1 w)).
Proof.
  intros Hap Htask Hdone Hinv t o Hlive. unfold live_driver in Hlive. simpl in *.
  assert (r < length (players w))%nat as Hr by (by eapply lookup_lt_Some).
  destruct (decide (t < length (tasks w))%nat) as [Hlt|Hge].
  - rewrite lookup_app_l in Hlive by done.
    destruct (Hinv t o Hlive) as (apo & Hapo & Ht).
    destruct (decide (o = r)) as [->|Hne].
    + assert (apo = ap) as -> by congruence.
      specialize (Hdone t Ht). unfold task_done in Hdone.
      unfold live_driver in Hlive. rewrite Hlive in Hdone. discriminate.
    + exists apo. split; [|done]. by rewrite !list_lookup_insert_ne.
  - rewrite lookup_app_r in Hlive by lia.
    destruct (t - length (tasks w))%nat as [|n] eqn:En; simpl in Hlive; [|done].
    injection Hlive as <-. assert (t = length (tasks w)) as -> by lia.
    eexists. split.
    + apply list_lookup_insert_eq. by rewrite length_insert.
    + reflexivity.
Qed.

Lemma drivers_held_connected r ap ap1 c w :
  players w !! r = Some ap ->
  audio_player_task ap1 = audio_player_task ap ->
  drivers_held w ->
  drivers_held (after_call c r ap1 w).
Proof.
  intros Hap Htask Hinv t o Hlive. unfold live_driver in Hlive. simpl in *.
  destruct (Hinv t o Hlive) as (apo & Hapo & Ht).
  destruct (decide (o = r)) as [->|Hne].
  - exists ap1. split.
    + apply list_lookup_insert_eq. by eapply lookup_lt_Some.
    + assert (apo = ap) as -> by congruence. congruence.
  - exists apo. split; [|done]. by rewrite list_lookup_insert_ne.
Qed.

Lemma join_drivers_held ctx w :
  drivers_held w -> drivers_held (join ctx w).2.
Proof.
  intros Hinv.
  destruct (ctx_author_channel ctx) as [destination|] eqn:Hd.
  2:{ unfold join. by rewrite Hd. }
  destruct (players w !! ctx_audio_player ctx) as [ap|] eqn:Hap.
  2:{ unfold join. rewrite Hd. erewrite bind_raise; [done|].
      unfold read_player. by rewrite Hap. }
  rewrite (join_eq ctx w ap destination Hd Hap). simpl.
  destruct (audio_player_task ap) as [t|] eqn:Ht.
  - destruct (task_done w t) eqn:Hdone; simpl.
    + eapply drivers_held_started; eauto using connected_to_task. congruence.
    + eapply drivers_held_connected; eauto using connected_to_task.
  - eapply drivers_held_started; eauto using connected_to_task. congruence.
Qed.

Lemma get_audio_player_drivers_held g w :
  drivers_held w -> drivers_held (get_audio_player g w).2.
Proof.
  intros Hinv. destruct (audio_players w !! g) as [r|] eqn:Hg.
  - by rewrite (get_audio_player_known g r w Hg).
  - rewrite (get_audio_player_new g w Hg). intros t o Hlive.
    destruct (Hinv t o Hlive) as (apo & Hapo & Ht).
    exists apo. split; [|done]. simpl. by apply lookup_app_l_Some.
Qed.

Lemma mark_done_drivers_held t w :
  drivers_held w -> drivers_held (mark_done t w).
Proof.
  intros Hinv t' o Hlive. unfold mark_done in *.
  destruct (tasks w !! t) as [[owner d]|] eqn:Et; [|by apply Hinv].
  unfold live_driver in Hlive. simpl in *.
  destruct (decide (t' = t)) as [->|Hne].
  - rewrite list_lookup_insert_eq in Hlive by (by eapply lookup_lt_Some). discriminate.
  - rewrite list_lookup_insert_ne in Hlive by done. by apply Hinv.
Qed.

Lemma driver_step_drivers_held ev w :
  drivers_held w -> drivers_held (driver_step ev w).
Proof.
  intros Hinv. destruct ev as [g ch|t]; simpl.
  - unfold cog_before_invoke.
    pose proof (get_audio_player_drivers_held g w Hinv) as Hget.
    unfold mbind, M_bind in *.
    destruct (get_audio_player g w) as [[r|e] w1] eqn:Eg; simpl in *; [|done].
    by apply join_drivers_held.
  - by apply mark_done_drivers_held.
Qed.

Lemma driver_run_drivers_held evs w :
  drivers_held w -> drivers_held (driver_run evs w).
Proof.
  revert w. induction evs as [|ev evs IH]; intros w Hinv; [done|].
  simpl. apply IH. by apply driver_step_drivers_held.
Qed.

Lemma empty_cog_drivers_held bot : drivers_held (empty_cog bot).
Proof. intros t r Hlive. unfold live_driver in Hlive. simpl in Hlive. done. Qed.

(** C6.  In every state the cog reaches through joins and completions of
    driver tasks, a player has at most one live driver task.  [join] starts
    the driver only when the player holds no task or a completed one; when
    the task it holds is still running, [join] starts nothing: the task
    table is unchanged and the only call made is the connect or move. *)
Theorem join_keeps_one_driver (bot : Z) (evs : list DriverEvent)
    (ctx : Context) (w : Cog) (ap : AudioPlayer) (destination : VoiceChannel) :
  (forall r t1 t2,
      live_driver (driver_run evs (empty_cog bot)) r t1 ->
      live_driver (driver_run evs (empty_cog bot)) r t2 -> t1 = t2)
  /\
  (ctx_author_channel ctx = Some destination ->
   players w !! ctx_audio_player ctx = Some ap ->
   let r := ctx_audio_player ctx in
   let w' := (join ctx w).2 in
   match audio_player_task ap with
   | Some t =>
       if task_done w t
       then tasks w' = tasks w ++ [(r, false)]
       else tasks w' = tasks w
            /\ calls w' = calls w ++ [connect_call destination ap]
            /\ (audio_player_task <$> players w' !! r) = Some (Some t)
   | None => tasks w' = tasks w ++ [(r, false)]
   end).
Proof.
  split.
  - intros r t1 t2 H1 H2.
    pose proof (driver_run_drivers_held evs _ (empty_cog_drivers_held bot)) as Hinv.
    destruct (Hinv t1 r H1) as (ap1 & Hap1 & Ht1).
    destruct (Hinv t2 r H2) as (ap2 & Hap2 & Ht2).
    congruence.
  - intros Hd Hap r w'. subst r w'.
    rewrite (join_eq ctx w ap destination Hd Hap). simpl.
    destruct (audio_player_task ap) as [t|] eqn:Ht; [|done].
    destruct (task_done w t); [done|]. simpl.
    split; [done|]. split; [done|].
    rewrite list_lookup_insert_eq by (by eapply lookup_lt_Some).
    simpl. by rewrite connected_to_task, Ht.
Qed.

(** A join, the completion of the driver it started, and a second join in
    guild 1 leave task 1 as the only live driver of player 0; a join on
    [cog_playing], whose driver runs, starts nothing. *)
Lemma join_keeps_one_driver_witness :
  tasks (driver_run [EJoin 1 channel_a; ETaskDone 0; EJoin 1 channel_a] (empty_cog 7))
    = [(0%nat, true); (0%nat, false)]
  /\ 1%nat = 1%nat
  /\ tasks (join ctx_1 cog_playing).2 = tasks cog_playing.
Proof.
  destruct (join_keeps_one_driver 7 [EJoin 1 channel_a; ETaskDone 0; EJoin 1 channel_a]
              ctx_1 cog_playing playing_player channel_a) as [Hone Hjoin].
  split; [reflexivity|]. split.
  - apply (Hone 0%nat 1%nat 1%nat); reflexivity.
  - apply (Hjoin eq_refl eq_refl).
Defined.

(** ** The coroutine of a collection request *)


Lemma run_invariant `{Collaborators} (P : PlayState -> Prop) sched st :
  P st -> (forall l st', P st' -> P (step l st')) -> P (run sched st).
Proof.
  intros H0 Hstep. revert st H0.
  induction sched as [|l sched IH]; intros st H0; [done|].
  simpl. apply IH. by apply Hstep.
Qed.

Ltac handler_cases st :=
  let i := fresh "i" in
  let rest := fresh "rest" in
  let Epc := fresh "Epc" in
  unfold step; destruct (ps_pc st) as [|i rest] eqn:Epc;
  [ idtac
  | destruct i as [m|t|j|s|s pn']; unfold exec;
    [ idtac
    | idtac
    | destruct (bool_decide (j ∈ ps_processed st)) eqn:Ej
    | let db' := fresh "db'" in
      let e := fresh "e" in
      destruct (insert_data s (ps_usage_db st)) as [[[]|e] db']
    | idtac ] ].

Lemma processed_pc k ok st : ps_pc (processed k ok st) = ps_pc st.
Proof. unfold processed. by destruct (_ && _). Qed.

Lemma processed_added k ok st : ps_added (processed k ok st) = ps_added st.
Proof. unfold processed. by destruct (_ && _). Qed.

Lemma processed_raised k ok st : ps_raised (processed k ok st) = ps_raised st.
Proof. unfold processed. by destruct (_ && _). Qed.

Lemma processed_player k ok st : ps_player (processed k ok st) = ps_player st.
Proof. unfold processed. by destruct (_ && _). Qed.

Lemma processed_sent k ok st : ps_sent (processed k ok st) = ps_sent st.
Proof. unfold processed. by destruct (_ && _). Qed.

Lemma processed_background k ok st :
  ps_background (processed k ok st) = ps_background st.
Proof. unfold processed. by destruct (_ && _). Qed.

Lemma processed_grows k ok st : ps_processed st ⊆ ps_processed (processed k ok st).
Proof. unfold processed. destruct (_ && _); simpl; set_solver. Qed.

Lemma step_processed_grows `{Collaborators} l st :
  ps_processed st ⊆ ps_processed (step l st).
Proof.
  destruct l as [|k ok|b].
  - handler_cases st; simpl; set_solver.
  - apply processed_grows.
  - done.
Qed.

Lemma step_adds_agree `{Collaborators} all l st :
  adds_agree all st -> adds_agree all (step l st).
Proof.
  intros (Hpre & Heq & Hraised). destruct l as [|k ok|b].
  - handler_cases st; unfold adds_agree; simpl in *; rewrite ?Epc in *; simpl in *;
      try (split; [done|]; split; [done|]; intros Hr; specialize (Hraised Hr); done).
    + split; [|split; [done|done]].
      rewrite app_nil_r. etrans; [|exact Hpre]. by apply prefix_app_r.
    + rewrite <- app_assoc. simpl.
      split; [done|]. split; [done|]. intros Hr. specialize (Hraised Hr). done.
  - unfold adds_agree, step.
    by rewrite processed_added, processed_pc, processed_raised.
  - done.
Qed.

Lemma step_adds_waited `{Collaborators} l st :
  adds_waited st -> adds_waited (step l st).
Proof.
  intros [(waited & Hg & Hw) Hall].
  destruct l as [|k ok|b].
  - handler_cases st; unfold adds_waited; simpl in *; rewrite ?Epc in *; simpl in *.
    + split; [|done]. by exists waited.
    + split; [|done]. by exists waited.
    + split; [|done]. by exists waited.
    + apply andb_prop in Hg as [Hj Hg]. apply bool_decide_eq_true in Hj.
      apply bool_decide_eq_true in Ej. subst j.
      split; [|done]. by exists true.
    + split; [|done]. by exists waited.
    + split; [|done]. by exists waited.
    + split; [|done]. exists false. done.
    + apply andb_prop in Hg as [Hwt Hg]. rewrite length_app. simpl.
      rewrite Nat.add_1_r. split.
      * exists false. split; [done|discriminate].
      * intros j Hj. destruct (decide (j = length (ps_added st))) as [->|Hne].
        -- by apply Hw.
        -- apply Hall. lia.
  - unfold adds_waited, step. rewrite processed_added, processed_pc.
    pose proof (processed_grows k ok st) as Hsub.
    split.
    + exists waited. split; [done|]. intros Ht. apply Hsub. by apply Hw.
    + intros j Hj. apply Hsub. by apply Hall.
  - split; [by exists waited|done].
Qed.

Lemma step_player_follows `{Collaborators} play_next ap l st :
  player_follows play_next ap st -> player_follows play_next ap (step l st).
Proof.
  intros [Hw Hp]. destruct l as [|k ok|b].
  - handler_cases st; unfold player_follows; simpl in *; rewrite ?Epc in *;
      simpl in *; try done.
    apply andb_prop in Hw as [Hpn Hw]. apply bool_decide_eq_true in Hpn.
    subst pn'. split; [done|]. rewrite fold_left_app. simpl. by rewrite Hp.
  - unfold player_follows, step.
    by rewrite processed_added, processed_pc, processed_player.
  - done.
Qed.

Lemma step_finish_is_last `{Collaborators} l st :
  finish_is_last st -> finish_is_last (step l st).
Proof.
  intros (Hl & Hs & Hr). destruct l as [|k ok|b].
  - handler_cases st; unfold finish_is_last; simpl in *; rewrite ?Epc in *;
      simpl in *;
      try (split; [done|]; split;
           [ intros Hin; by destruct (Hs Hin)
           | intros Hne; by specialize (Hr Hne) ]).
    + assert (ps_raised st = None) as Hnone.
      { destruct (ps_raised st) as [e|] eqn:Er; [|done].
        assert (Some e <> None) as Hne by done. by specialize (Hr Hne). }
      destruct m;
        try (split; [done|]; split;
             [ intros Hin; apply elem_of_app in Hin as [Hin|Hin];
               [ by destruct (Hs Hin)
               | apply list_elem_of_singleton in Hin; discriminate ]
             | intros Hne; congruence ]).
      apply bool_decide_eq_true in Hl. subst rest. done.
    + split; [done|]. split; [|done].
      intros Hin. by destruct (Hs Hin).
  - unfold finish_is_last, step.
    by rewrite processed_sent, processed_pc, processed_raised.
  - done.
Qed.

Lemma step_background_agrees `{Collaborators} all l st :
  background_agrees all st -> background_agrees all (step l st).
Proof.
  intros Hb. unfold background_agrees in *. destruct l as [|k ok|b].
  - handler_cases st; simpl in *; rewrite ?Epc in *; simpl in *; try done.
    + by rewrite <- app_assoc.
    + rewrite app_nil_r. etrans; [|exact Hb]. by apply prefix_app_r.
  - unfold step. by rewrite processed_background, processed_pc.
  - done.
Qed.

(** *** The body of a collection request, read statically *)

Section Body.
Variables (enable_usage_database play_next : bool).

Let tail : list Instr := [ISend RFinishedProcessing].

Lemma consume_adds k pl :
  adds_of (consume enable_usage_database play_next k pl ++ tail) = pl.
Proof.
  revert k. induction pl as [|s pl IH]; intros k; [done|].
  simpl. destruct enable_usage_database; simpl; by rewrite IH.
Qed.

Lemma consume_waits k pl :
  waits_of (consume enable_usage_database play_next k pl ++ tail)
  = seq k (length pl).
Proof.
  revert k. induction pl as [|s pl IH]; intros k; [done|].
  simpl. destruct enable_usage_database; simpl; by rewrite IH.
Qed.

Lemma consume_guarded k pl :
  guarded false k (consume enable_usage_database play_next k pl ++ tail) = true.
Proof.
  revert k. induction pl as [|s pl IH]; intros k; [done|].
  simpl. rewrite bool_decide_eq_true_2 by done.
  destruct enable_usage_database; simpl; by rewrite IH.
Qed.

Lemma consume_adds_with k pl :
  adds_with play_next (consume enable_usage_database play_next k pl ++ tail) = true.
Proof.
  revert k. induction pl as [|s pl IH]; intros k; [done|].
  simpl. destruct enable_usage_database; simpl;
    rewrite bool_decide_eq_true_2 by done; by rewrite IH.
Qed.

Lemma consume_finishes_last k pl :
  finishes_last (consume enable_usage_database play_next k pl ++ tail) = true.
Proof.
  revert k. induction pl as [|s pl IH]; intros k; [done|].
  simpl. destruct enable_usage_database; simpl; by rewrite IH.
Qed.

Lemma consume_creates k pl :
  creates_of (consume enable_usage_database play_next k pl ++ tail) = [].
Proof.
  revert k. induction pl as [|s pl IH]; intros k; [done|].
  simpl. destruct enable_usage_database; simpl; by rewrite IH.
Qed.
End Body.

Lemma waits_of_app pc1 pc2 : waits_of (pc1 ++ pc2) = waits_of pc1 ++ waits_of pc2.
Proof.
  induction pc1 as [|i pc1 IH]; [done|].
  destruct i; simpl; by rewrite IH.
Qed.

Lemma step_pc_suffix `{Collaborators} l st : ps_pc (step l st) `suffix_of` ps_pc st.
Proof.
  destruct l as [|k ok|b].
  - handler_cases st; simpl; rewrite ?Epc; try done;
      try (by apply suffix_cons_r); by apply suffix_nil.
  - unfold step. by rewrite processed_pc.
  - done.
Qed.

Lemma run_pc_suffix `{Collaborators} sched st :
  ps_pc (run sched st) `suffix_of` ps_pc st.
Proof.
  revert st. induction sched as [|l sched IH]; intros st; [done|].
  simpl. etrans; [apply IH|apply step_pc_suffix].
Qed.

(** All that is proved of every state a collection request reaches. *)
Lemma collection_reach `{Collaborators} dbf pn pl ap db sched :
  let st := run sched (start ap db (_play_body dbf pn (Collection pl))) in
  adds_agree pl st /\ adds_waited st /\ player_follows pn ap st
  /\ finish_is_last st /\ background_agrees [ProcessPlaylist pl] st
  /\ (forall k, k ∈ waits_of (ps_pc st) -> (k < length pl)%nat).
Proof.
  intros st. subst st.
  split; [|split; [|split; [|split; [|split]]]].
  - apply run_invariant; [|intros; by apply step_adds_agree].
    unfold adds_agree, start. simpl. rewrite consume_adds.
    split; [done|]. split; [done|]. intros Hne. by destruct Hne.
  - apply run_invariant; [|intros; by apply step_adds_waited].
    unfold adds_waited, start. simpl. split.
    + exists false. split; [apply consume_guarded|discriminate].
    + intros j Hj. lia.
  - apply run_invariant; [|intros; by apply step_player_follows].
    unfold player_follows, start. simpl. split; [apply consume_adds_with|done].
  - apply run_invariant; [|intros; by apply step_finish_is_last].
    unfold finish_is_last, start. simpl.
    split; [apply consume_finishes_last|]. split.
    + intros Hin. by apply elem_of_nil in Hin.
    + intros Hne. by destruct Hne.
  - apply run_invariant; [|intros; by apply step_background_agrees].
    unfold background_agrees, start. simpl. by rewrite consume_creates.
  - intros k Hk.
    destruct (run_pc_suffix sched (start ap db (_play_body dbf pn (Collection pl))))
      as [pre Hpre].
    assert (k ∈ waits_of (ps_pc (start ap db (_play_body dbf pn (Collection pl)))))
      as Hin.
    { rewrite Hpre, waits_of_app. apply elem_of_app. by right. }
    simpl in Hin. rewrite consume_waits in Hin.
    apply elem_of_seq in Hin. lia.
Qed.

(** *** With the recorder of the spec the handler is never cut short *)

Lemma described_step_raised l st :
  ps_raised st = None -> ps_raised (step (H := described) l st) = None.
Proof.
  intros Hn. destruct l as [|k ok|b].
  - unfold step. destruct (ps_pc st) as [|i rest]; [done|].
    destruct i; unfold exec; simpl; try done.
    + by destruct (bool_decide _).
    + unfold insert_data_logged. by destruct (db_reachable _).
  - unfold step. by rewrite processed_raised.
  - done.
Qed.

Lemma described_run_raised sched st :
  ps_raised st = None -> ps_raised (run (H := described) sched st) = None.
Proof.
  intros Hn. apply (run_invariant (H := described) (fun st => ps_raised st = None));
    [done|]. intros. by apply described_step_raised.
Qed.

(** Once every position the coroutine waits on has fired, as many turns as
    it has instructions take the handler to its end; the adds are those of
    the coroutine, and the marks of the entries are as before. *)
Lemma handler_completes st :
  ps_raised st = None ->
  (forall k, k ∈ waits_of (ps_pc st) -> k ∈ ps_processed st) ->
  let st' := run (H := described) (handler_turns (length (ps_pc st))) st in
  ps_pc st' = [] /\ ps_raised st' = None
  /\ ps_added st' = ps_added st ++ adds_of (ps_pc st)
  /\ ps_processed st' = ps_processed st /\ ps_failed st' = ps_failed st.
Proof.
  remember (ps_pc st) as pc eqn:Epc. revert st Epc.
  induction pc as [|i rest IH]; intros st Epc Hn Hw.
  { simpl. rewrite app_nil_r. done. }
  intros st'. subst st'.
  change (run (H := described) (handler_turns (length (i :: rest))) st)
    with (run (H := described) (handler_turns (length rest))
            (step (H := described) LHandler st)).
  assert (ps_pc (step (H := described) LHandler st) = rest
          /\ ps_raised (step (H := described) LHandler st) = None
          /\ ps_added (step (H := described) LHandler st) ++ adds_of rest
             = ps_added st ++ adds_of (i :: rest)
          /\ ps_processed (step (H := described) LHandler st) = ps_processed st
          /\ ps_failed (step (H := described) LHandler st) = ps_failed st)
    as (Hpc & Hr & Ha & Hp & Hf).
  { unfold step. rewrite <- Epc. destruct i as [m|t|j|s|s pn']; unfold exec; simpl;
      try done.
    - rewrite bool_decide_eq_true_2; [done|]. apply Hw. simpl. by left.
    - unfold insert_data_logged. by destruct (db_reachable _).
    - by rewrite <- app_assoc. }
  specialize (IH (step (H := described) LHandler st) (eq_sym Hpc) Hr).
  rewrite Hp in IH.
  destruct IH as (H1 & H2 & H3 & H4 & H5).
  { intros k Hk. apply Hw. destruct i; simpl; try done. by right. }
  rewrite H1, H2, H3, H4, H5, Ha, Hf. done.
Qed.

(** *** The queue after the adds *)


Lemma fold_add_prepend (l : list Song) (ap : AudioPlayer) :
  song_queue (fold_left (fun p s => add_to_song_queue s true p) l ap)
  = rev l ++ song_queue ap.
Proof.
  revert ap. induction l as [|s l IH]; intros ap; simpl; [done|].
  rewrite IH. simpl. by rewrite <- app_assoc.
Qed.

(** With [playnext] every add puts its song at the head: a collection ends
    up ahead of the queue in reverse collection order. *)
Lemma playnext_collection_queue dbf pl ap db sched :
  let st := run (H := described) sched
              (start ap db (_play_body dbf true (Collection pl))) in
  song_queue (ps_player st) = rev (ps_added st) ++ song_queue ap.
Proof.
  intros st. subst st.
  destruct (collection_reach (H := described) dbf true pl ap db sched)
    as (_ & _ & [_ Hp] & _).
  rewrite Hp. apply fold_add_prepend.
Qed.


Lemma finished_inv st : finished st = true -> ps_pc st = [] /\ ps_raised st = None.
Proof.
  unfold finished. destruct (ps_pc st); [|done]. by destruct (ps_raised st).
Qed.

Lemma finished_intro st : ps_pc st = [] -> ps_raised st = None -> finished st = true.
Proof. unfold finished. by intros -> ->. Qed.

(** Reached from a collection request with the collaborators of the spec,
    and every entry processed: the handler, given its turns, ends having
    added the whole playlist. *)
Lemma described_collection_completes dbf pn pl ap db sched :
  let st := run (H := described) sched
              (start ap db (_play_body dbf pn (Collection pl))) in
  (forall k, (k < length pl)%nat -> k ∈ ps_processed st) ->
  let st' := run (H := described) (handler_turns (length (ps_pc st))) st in
  finished st' = true /\ ps_added st' = pl
  /\ ps_processed st' = ps_processed st /\ ps_failed st' = ps_failed st.
Proof.
  intros st Hall st'.
  destruct (collection_reach (H := described) dbf pn pl ap db sched)
    as ((_ & Heq & _) & _ & _ & _ & _ & Hwaits).
  assert (ps_raised st = None) as Hn by (by apply described_run_raised).
  destruct (handler_completes st Hn) as (Hpc & Hr & Ha & Hp & Hf).
  { intros k Hk. apply Hall. by apply Hwaits. }
  subst st st'.
  split; [by apply finished_intro|]. split; [|done].
  rewrite Ha. by apply Heq.
Qed.




(** *** Failed entries *)

(** The handler reads no failed mark: its turn commutes with any change of
    the marks. *)
Lemma handler_ignores_failed `{Collaborators} (failed : gset nat) (st : PlayState) :
  step LHandler (set_failed failed st) = set_failed failed (step LHandler st).
Proof.
  unfold step. simpl. destruct (ps_pc st) as [|i rest]; [done|].
  destruct i; unfold exec, set_failed, set_pc; simpl; try done.
  - by destruct (bool_decide _).
  - by destruct (insert_data _ _) as [[[]|e] db'].
Qed.

(** C2, as amended.  The consumer makes no test of the failed mark: a turn
    of the handler does the same whatever entries are marked failed.  An
    entry whose resolution failed has its signal fired like any other, and
    once every entry's signal has fired the handler enqueues every entry of
    the collection, the failed ones included, in collection order; the
    marks stay as they were. *)
Theorem failed_entries_are_enqueued (dbf pn : bool) (pl : list Song)
    (ap : AudioPlayer) (db : UsageDatabase) (sched : list Label) :
  let st := run (H := described) sched
              (start ap db (_play_body dbf pn (Collection pl))) in
  (forall k, (k < length pl)%nat -> k ∈ ps_processed st) ->
  let st' := run (H := described) (handler_turns (length (ps_pc st))) st in
  (forall failed,
      step (H := described) LHandler (set_failed failed st)
      = set_failed failed (step (H := described) LHandler st))
  /\ finished st' = true
  /\ ps_added st' = pl
  /\ ps_failed st' = ps_failed st
  /\ (forall k s, k ∈ ps_failed st' -> pl !! k = Some s -> s ∈ ps_added st').
Proof.
  intros st Hall st'.
  destruct (described_collection_completes dbf pn pl ap db sched Hall)
    as (Hfin & Hadd & _ & Hf).
  split; [intros failed; apply handler_ignores_failed|].
  split; [exact Hfin|]. split; [exact Hadd|]. split; [exact Hf|].
  intros k s _ Hk. subst st st'. rewrite Hadd.
  apply list_elem_of_lookup. by exists k.
Qed.

Lemma second_fails_processed :
  forall k, (k < length [song_a; song_b])%nat ->
    k ∈ ps_processed (run (H := described) second_fails
                        (start new_audio_player db_up
                           (_play_body true false (Collection [song_a; song_b])))).
Proof.
  intros k Hk. simpl in Hk.
  destruct k as [|[|k]]; [| |lia];
    refine (bool_decide_eq_true_1 _ _); vm_compute; reflexivity.
Qed.

(** [song_b], whose resolution failed, is enqueued behind [song_a]. *)
Lemma failed_entries_are_enqueued_witness :
  let st := run (H := described) second_fails
              (start new_audio_player db_up
                 (_play_body true false (Collection [song_a; song_b]))) in
  let st' := run (H := described) (handler_turns (length (ps_pc st))) st in
  finished st' = true /\ ps_added st' = [song_a; song_b].
Proof.
  intros st st'.
  destruct (failed_entries_are_enqueued true false [song_a; song_b]
              new_audio_player db_up second_fails second_fails_processed)
    as (_ & Hfin & Hadd & _).
  split; [exact Hfin | exact Hadd].
Defined.

(** C2, as stated, fails: the second entry of a two-song collection fails to
    resolve and is added to the queue all the same. *)
Lemma failed_entry_not_skipped :
  ~ failed_entries_skipped [song_a; song_b]
      (run (H := described) (second_fails ++ handler_turns 7)
         (start new_audio_player db_up
            (_play_body true false (Collection [song_a; song_b])))).
Proof.
  intros Hskip. apply (Hskip 1%nat song_b).
  - refine (bool_decide_eq_true_1 _ _). vm_compute. reflexivity.
  - reflexivity.
  - assert (ps_added (run (H := described) (second_fails ++ handler_turns 7)
              (start new_audio_player db_up
                 (_play_body true false (Collection [song_a; song_b]))))
            = [song_a; song_b]) as -> by (vm_compute; reflexivity).
    apply list_elem_of_In. simpl. auto.
Qed.

(** *** The usage recorder *)

(** Where the recorder does raise, [_play] has no handler for it: the
    exception ends the coroutine and the song is not added. *)
Lemma raising_recorder_blocks_add `{Collaborators} (pn : bool) (song : Song)
    (ap : AudioPlayer) (db db' : UsageDatabase) (e : ErrClass) :
  insert_data song db = (Raise e, db') ->
  let st := run (handler_turns 3) (start ap db (_play_body true pn (Single song))) in
  ps_raised st = Some e /\ ps_added st = [] /\ ps_player st = ap.
Proof.
  intros Hraise. simpl. unfold exec at 3. simpl. rewrite Hraise. simpl. done.
Qed.



(** *** Where the waiting happens *)

Lemma handler_turn_processed `{Collaborators} st :
  ps_processed (step LHandler st) = ps_processed st.
Proof.
  unfold step. destruct (ps_pc st) as [|i rest]; [done|].
  destruct i; unfold exec; simpl; try done.
  - by destruct (bool_decide _).
  - by destruct (insert_data _ _) as [[[]|e] db'].
Qed.

Lemma handler_turns_processed `{Collaborators} n st :
  ps_processed (run (handler_turns n) st) = ps_processed st.
Proof.
  revert st. induction n as [|n IH]; intros st; [done|].
  simpl. change (ps_processed (run (handler_turns n) (step LHandler st))
                 = ps_processed st).
  by rewrite IH, handler_turn_processed.
Qed.

(** C5, as amended.  What a collection request hands to the event loop as an
    independent task is the resolution of the playlist, and nothing else.
    The loop that waits on the readiness signals in collection order is
    part of the command's own coroutine: a wait on a signal that has not
    fired suspends the handler, which has not ended, and has not sent its
    closing reply, before every entry's signal has fired. *)
Theorem collection_waits_in_handler `{Collaborators} (dbf pn : bool)
    (pl : list Song) (ap : AudioPlayer) (db : UsageDatabase) (sched : list Label) :
  let body := _play_body dbf pn (Collection pl) in
  let st := run sched (start ap db body) in
  creates_of body = [ProcessPlaylist pl]
  /\ waits_of body = seq 0 (length pl)
  /\ (ps_background st = [] \/ ps_background st = [ProcessPlaylist pl])
  /\ (forall k rest, ps_pc st = IWait k :: rest -> k ∉ ps_processed st ->
      step LHandler st = st)
  /\ (finished st = true -> forall k, (k < length pl)%nat -> k ∈ ps_processed st)
  /\ (RFinishedProcessing ∈ ps_sent st ->
      forall k, (k < length pl)%nat -> k ∈ ps_processed st).
Proof.
  intros body st. subst body st. cbv zeta.
  destruct (collection_reach dbf pn pl ap db sched)
    as ((_ & Heq & _) & (_ & Hall) & _ & (_ & Hsent & _) & Hbg & _).
  set (st := run sched (start ap db (_play_body dbf pn (Collection pl)))) in *.
  assert (finished st = true -> forall k, (k < length pl)%nat -> k ∈ ps_processed st)
    as Hfin.
  { intros Hf k Hk. apply finished_inv in Hf as [Hpc Hr].
    specialize (Heq Hr). rewrite Hpc in Heq. simpl in Heq.
    rewrite app_nil_r in Heq. apply Hall. by rewrite Heq. }
  split; [simpl; by rewrite consume_creates|].
  split; [apply (consume_waits dbf pn 0 pl)|].
  split.
  { unfold background_agrees in Hbg. destruct Hbg as [more Hmore].
    destruct (ps_background st) as [|t ts]; [by left|right].
    simpl in Hmore. injection Hmore as <- Hnil.
    symmetry in Hnil. apply app_eq_nil in Hnil as [Hts _].
    apply app_eq_nil in Hts as [-> _]. done. }
  split.
  { intros k rest Epc Hk. unfold step. rewrite Epc. unfold exec.
    by rewrite bool_decide_eq_false_2. }
  split; [exact Hfin|].
  intros Hin. apply Hfin. destruct (Hsent Hin) as [Hpc Hr]. by apply finished_intro.
Qed.

(** On the five-entry album resolved in reverse: the closing reply is sent,
    and the last entry, like every other, had been processed by then. *)
Lemma collection_waits_in_handler_witness :
  4%nat ∈ ps_processed (run (H := described) (reverse_resolution ++ handler_turns 16)
                          (start new_audio_player db_up
                             (_play_body true false (Collection album_5)))).
Proof.
  destruct (collection_waits_in_handler (H := described) true false album_5
              new_audio_player db_up (reverse_resolution ++ handler_turns 16))
    as (_ & _ & _ & _ & _ & Hsent).
  apply Hsent; [|simpl; lia].
  assert (ps_sent (run (H := described) (reverse_resolution ++ handler_turns 16)
            (start new_audio_player db_up
               (_play_body true false (Collection album_5))))
          = [RPlaylistEmbed; RFinishedProcessing]) as -> by (vm_compute; reflexivity).
  apply list_elem_of_In. simpl. auto.
Defined.

(** C5, as stated, fails: the handler of a one-song collection, left to run
    by itself however long, does not end; it stays at the wait on entry 0. *)
Lemma handler_does_its_own_waiting :
  ~ handled_without_waiting (H := described) true false [song_a]
      new_audio_player db_up.
Proof.
  intros [n Hfin].
  destruct (collection_reach (H := described) true false [song_a] new_audio_player
              db_up (handler_turns n))
    as ((_ & Heq & _) & (_ & Hall) & _).
  apply finished_inv in Hfin as [Hpc Hr].
  specialize (Heq Hr). rewrite Hpc in Heq.
  change (adds_of []) with (@nil Song) in Heq. rewrite app_nil_r in Heq.
  assert (0%nat ∈ ps_processed (run (H := described) (handler_turns n)
            (start new_audio_player db_up
               (_play_body true false (Collection [song_a]))))) as Hin.
  { apply Hall. rewrite Heq. simpl. lia. }
  rewrite handler_turns_processed in Hin. simpl in Hin.
  by apply not_elem_of_empty in Hin.
Qed.

(** * Further properties of the cog *)

(** ** Framing *)

Lemma confined_refl g r w : confined g r w w.
Proof. repeat split; auto. Qed.

Lemma confined_trans g r w1 w2 w3 :
  confined g r w1 w2 -> confined g r w2 w3 -> confined g r w1 w3.
Proof.
  intros (L1 & P1 & G1 & D1 & B1) (L2 & P2 & G2 & D2 & B2).
  split; [congruence|]. split.
  { intros r' Hr. rewrite P2, P1; done. }
  split.
  { intros g' Hg. rewrite G2, G1; done. }
  split; [|congruence].
  destruct D2 as [D2|D2]; [|by right].
  destruct D1 as [D1|D1]; [left|right]; congruence.
Qed.

Lemma keeps_bind {A B} g r (m : M A) (k : A -> M B) :
  keeps (confined g r) m -> (forall a, keeps (confined g r) (k a)) ->
  keeps (confined g r) (m ≫= k).
Proof.
  intros Hm Hk w. unfold mbind, M_bind. specialize (Hm w).
  destruct (m w) as [[a|e] w1]; simpl in *; [|done].
  eapply confined_trans; [exact Hm|apply Hk].
Qed.

Lemma keeps_ret {A} g r (a : A) : keeps (confined g r) (mret a).
Proof. intros w. apply confined_refl. Qed.

Lemma keeps_raise {A} g r e : keeps (confined g r) (@raise A e).
Proof. intros w. apply confined_refl. Qed.

Lemma keeps_get_cog g r : keeps (confined g r) get_cog.
Proof. intros w. apply confined_refl. Qed.

Lemma keeps_send g r m : keeps (confined g r) (send m).
Proof. intros w. repeat split; auto. Qed.

Lemma keeps_log_call g r c : keeps (confined g r) (log_call c).
Proof. intros w. repeat split; auto. Qed.

Lemma keeps_read_player g r r' : keeps (confined g r) (read_player r').
Proof. intros w. unfold read_player. destruct (players w !! r'); apply confined_refl. Qed.

Lemma keeps_write_player g r ap : keeps (confined g r) (write_player r ap).
Proof.
  intros w. unfold write_player, modify. simpl.
  split; [apply length_insert|]. split; [|by auto].
  intros r' Hr. by apply list_lookup_insert_ne.
Qed.

Lemma keeps_call_method {A} g r c (m : AudioPlayer -> A * AudioPlayer) :
  keeps (confined g r) (call_method c r m).
Proof.
  unfold call_method.
  apply keeps_bind; [apply keeps_read_player|intros ap].
  apply keeps_bind; [apply keeps_log_call|intros _].
  apply keeps_bind; [apply keeps_write_player|intros _].
  apply keeps_ret.
Qed.

Lemma keeps_start_audio_player g r : keeps (confined g r) (start_audio_player r).
Proof.
  unfold start_audio_player.
  apply keeps_bind; [apply keeps_read_player|intros ap].
  apply keeps_bind; [apply keeps_get_cog|intros w0].
  apply keeps_bind; [apply keeps_log_call|intros _].
  apply keeps_bind; [|intros _; apply keeps_write_player].
  intros w. repeat split; auto.
Qed.

Ltac keeps_step :=
  first
    [ apply keeps_ret | apply keeps_raise | apply keeps_send | apply keeps_log_call
    | apply keeps_read_player | apply keeps_write_player | apply keeps_call_method
    | apply keeps_start_audio_player | apply keeps_get_cog
    | apply keeps_bind; [|intros ?] ].

Ltac keeps_auto :=
  repeat first
    [ keeps_step
    | match goal with
      | |- keeps _ (match ?x with _ => _ end) => destruct x
      | |- keeps _ (if ?x then _ else _) => destruct x
      end ].

Lemma keeps_join ctx :
  keeps (confined (ctx_guild_id ctx) (ctx_audio_player ctx)) (join ctx).
Proof. unfold join. keeps_auto. Qed.

Lemma keeps_leave `{Collaborators} ctx :
  keeps (confined (ctx_guild_id ctx) (ctx_audio_player ctx)) (leave ctx).
Proof.
  unfold leave. apply keeps_bind; [apply keeps_call_method|intros b].
  destruct (negb b); [apply keeps_send|].
  apply keeps_bind; [apply keeps_get_cog|intros w0].
  destruct (audio_players w0 !! ctx_guild_id ctx); [|apply keeps_raise].
  intros w. unfold modify. simpl. split; [done|]. split; [done|].
  split; [intros g' Hg; by apply lookup_delete_ne|].
  split; [right; apply lookup_delete_eq|done].
Qed.

Lemma keeps_control `{Collaborators} c ctx :
  keeps (confined (ctx_guild_id ctx) (ctx_audio_player ctx)) (control c ctx).
Proof.
  destruct c; unfold control, pause, resume, stop, skip, back; keeps_auto.
Qed.

Lemma keeps_remove `{Collaborators} ctx args :
  keeps (confined (ctx_guild_id ctx) (ctx_audio_player ctx)) (remove ctx args).
Proof. unfold remove. keeps_auto. Qed.

Lemma keeps_handler `{Collaborators} c ctx :
  keeps (confined (ctx_guild_id ctx) (ctx_audio_player ctx)) (handler c ctx).
Proof.
  destruct c; simpl;
    [apply keeps_join | apply keeps_leave | apply keeps_control | apply keeps_remove].
Qed.

(** ** The registry *)

Lemma get_audio_player_sound g w :
  registry_sound w ->
  exists r,
    get_audio_player g w = (Ret r, (get_audio_player g w).2)
    /\ audio_players (get_audio_player g w).2 !! g = Some r
    /\ registry_sound (get_audio_player g w).2
    /\ bot_user_id (get_audio_player g w).2 = bot_user_id w
    /\ (forall g' r', audio_players w !! g' = Some r' ->
          audio_players (get_audio_player g w).2 !! g' = Some r'
          /\ players (get_audio_player g w).2 !! r' = players w !! r').
Proof.
  intros [Halloc Hinj].
  destruct (audio_players w !! g) as [r|] eqn:Hg.
  - rewrite (get_audio_player_known g r w Hg). simpl. exists r.
    repeat split; auto.
  - rewrite (get_audio_player_new g w Hg). simpl. exists (length (players w)).
    split; [done|]. split; [apply lookup_insert_eq|]. split; [|split; [done|]].
    + split.
      * intros g0 r0 H0. simpl in *. rewrite length_app. simpl.
        destruct (decide (g0 = g)) as [->|Hne].
        -- rewrite lookup_insert_eq in H0. injection H0 as <-. lia.
        -- rewrite lookup_insert_ne in H0 by congruence.
           specialize (Halloc _ _ H0). lia.
      * intros g1 g2 r0 H1 H2. simpl in *.
        destruct (decide (g1 = g)) as [->|Hne1];
          destruct (decide (g2 = g)) as [->|Hne2]; try done.
        -- rewrite lookup_insert_eq in H1. injection H1 as <-.
           rewrite lookup_insert_ne in H2 by congruence.
           specialize (Halloc _ _ H2). lia.
        -- rewrite lookup_insert_eq in H2. injection H2 as <-.
           rewrite lookup_insert_ne in H1 by congruence.
           specialize (Halloc _ _ H1). lia.
        -- rewrite lookup_insert_ne in H1, H2 by congruence. by eapply Hinj.
    + intros g' r' H'. simpl. split.
      * rewrite lookup_insert_ne; [done|]. intros Heq. rewrite Heq in Hg. congruence.
      * apply lookup_app_l. by eapply Halloc.
Qed.

Lemma confined_sound g r w w' :
  registry_sound w -> confined g r w w' -> registry_sound w'.
Proof.
  intros [Halloc Hinj] (L & _ & G & D & _).
  assert (forall g0 r0, audio_players w' !! g0 = Some r0 ->
                        audio_players w !! g0 = Some r0) as Hsub.
  { intros g0 r0 H0. destruct (decide (g0 = g)) as [->|Hne].
    - destruct D as [D|D]; congruence.
    - by rewrite <- G. }
  split.
  - intros g0 r0 H0. rewrite L. eapply Halloc. by apply Hsub.
  - intros g1 g2 r0 H1 H2. eapply Hinj; by apply Hsub.
Qed.

Lemma dispatch_unfold `{Collaborators} c g author w :
  registry_sound w ->
  exists r,
    let w1 := (get_audio_player g w).2 in
    get_audio_player g w = (Ret r, w1)
    /\ dispatch c g author w = handler c (mkContext g author r) w1.
Proof.
  intros Hs. destruct (get_audio_player_sound g w Hs) as (r & Hget & _).
  exists r. split; [done|]. unfold dispatch, cog_before_invoke.
  erewrite bind_ret; [reflexivity|]. by erewrite bind_ret by exact Hget.
Qed.

Lemma dispatch_sound `{Collaborators} c g author w :
  registry_sound w -> registry_sound (dispatch c g author w).2.
Proof.
  intros Hs. destruct (dispatch_unfold c g author w Hs) as (r & Hget & ->).
  destruct (get_audio_player_sound g w Hs) as (r0 & _ & _ & Hs1 & _).
  eapply confined_sound; [exact Hs1|].
  apply (keeps_handler c (mkContext g author r)).
Qed.

(** What the listener does once it has looked the player up. *)
Lemma on_voice_state_update_unfold `{Collaborators} member before after w :
  on_voice_state_update member before after w = (Ret tt, w)
  \/ (before = None /\ on_voice_state_update member before after w = (Raise AttributeError, w))
  \/ exists ch r,
       before = Some ch
       /\ get_audio_player (channel_guild_id ch) w
          = (Ret r, (get_audio_player (channel_guild_id ch) w).2)
       /\ confined (channel_guild_id ch) r (get_audio_player (channel_guild_id ch) w).2
            (on_voice_state_update member before after w).2.
Proof.
  unfold on_voice_state_update. erewrite bind_ret by reflexivity.
  destruct (negb (member =? bot_user_id w) && bool_decide (after = None)); [|by left].
  destruct before as [ch|]; [|right; left; done].
  right; right. exists ch.
  destruct (audio_players w !! channel_guild_id ch) as [r|] eqn:Hg.
  - exists r. rewrite (get_audio_player_known _ r w Hg). split; [done|]. split; [done|].
    erewrite bind_ret by (by apply get_audio_player_known).
    assert (keeps (confined (channel_guild_id ch) r)
              (ap ← read_player r;
               match voice_client ap with
               | Some vc =>
                   if (channel_id ch =? channel_id (vc_channel vc))
                      && (length (channel_voice_states ch) <=? 1)%nat
                   then call_method (CLeave r) r ap_leave;; mret tt
                   else mret tt
               | None => mret tt
               end)) as Hk by keeps_auto.
    apply Hk.
  - exists (length (players w)). rewrite (get_audio_player_new _ w Hg).
    split; [done|]. split; [done|].
    erewrite bind_ret by (by apply get_audio_player_new).
    assert (keeps (confined (channel_guild_id ch) (length (players w)))
              (ap ← read_player (length (players w));
               match voice_client ap with
               | Some vc =>
                   if (channel_id ch =? channel_id (vc_channel vc))
                      && (length (channel_voice_states ch) <=? 1)%nat
                   then call_method (CLeave (length (players w))) (length (players w))
                          ap_leave;; mret tt
                   else mret tt
               | None => mret tt
               end)) as Hk by keeps_auto.
    apply Hk.
Qed.

Lemma event_step_sound `{Collaborators} ev w :
  registry_sound w -> registry_sound (event_step ev w).
Proof.
  intros Hs. destruct ev as [c g author|member before after]; simpl.
  - by apply dispatch_sound.
  - destruct (on_voice_state_update_unfold member before after w)
      as [->|[[_ ->]|(ch & r & _ & _ & Hc)]]; [done|done|].
    destruct (get_audio_player_sound (channel_guild_id ch) w Hs) as (_ & _ & _ & Hs1 & _).
    eapply confined_sound; [exact Hs1|exact Hc].
Qed.

Lemma empty_cog_sound bot : registry_sound (empty_cog bot).
Proof. split; intros *; simpl; by rewrite lookup_empty. Qed.

Lemma cog_run_sound `{Collaborators} evs w :
  registry_sound w -> registry_sound (cog_run evs w).
Proof.
  unfold cog_run. revert w.
  induction evs as [|ev evs IH]; intros w Hs; [done|].
  simpl. apply IH. by apply event_step_sound.
Qed.

(** X1.  In every state the cog reaches from its initial state through
    commands and voice-state updates, each guild registered in
    [audio_players] refers to an existing player object, and no two guilds
    refer to the same object. *)
Theorem registry_stays_sound `{Collaborators} (bot : Z) (evs : list Event) :
  registry_sound (cog_run evs (empty_cog bot)).
Proof. apply cog_run_sound, empty_cog_sound. Qed.

(** X2.  What happens in one guild stays there: a command or voice-state
    update about a guild leaves the registry entry of every other guild,
    and the player object behind it, exactly as they were. *)
Theorem other_guilds_untouched `{Collaborators} (ev : Event) (w : Cog)
    (g' : Z) (r' : nat) :
  registry_sound w ->
  event_guild ev <> Some g' ->
  audio_players w !! g' = Some r' ->
  audio_players (event_step ev w) !! g' = Some r'
  /\ players (event_step ev w) !! r' = players w !! r'.
Proof.
  intros Hs Hev Hg'.
  assert (forall g r w2,
             g <> g' ->
             get_audio_player g w = (Ret r, (get_audio_player g w).2) ->
             confined g r (get_audio_player g w).2 w2 ->
             audio_players w2 !! g' = Some r' /\ players w2 !! r' = players w !! r')
    as Hframe.
  { intros g r w2 Hne Hget (_ & P & G & _).
    destruct (get_audio_player_sound g w Hs) as (r0 & Hget0 & Hr0 & [_ Hinj1] & _ & Hkeep).
    assert (r0 = r) as -> by congruence.
    destruct (Hkeep g' r' Hg') as [Hg1 Hp1].
    split.
    - rewrite G; done.
    - rewrite P; [done|]. intros ->. apply Hne. by eapply Hinj1. }
  destruct ev as [c g author|member before after]; simpl in *.
  - assert (g <> g') as Hne by congruence.
    destruct (dispatch_unfold c g author w Hs) as (r & Hget & ->).
    eapply Hframe; [exact Hne|exact Hget|].
    apply (keeps_handler c (mkContext g author r)).
  - destruct (on_voice_state_update_unfold member before after w)
      as [->|[[_ ->]|(ch & r & -> & Hget & Hc)]]; [done|done|].
    simpl in Hev. assert (channel_guild_id ch <> g') as Hne by congruence.
    by eapply Hframe.
Qed.

(** Guild 1 leaves; the entry and the player of guild 2 stay as they were. *)
Lemma other_guilds_untouched_witness :
  audio_players (event_step (H := described) (OnCommand DoLeave 1 None) cog_two_guilds)
    !! 2 = Some 1%nat
  /\ players (event_step (H := described) (OnCommand DoLeave 1 None) cog_two_guilds)
       !! 1%nat = players cog_two_guilds !! 1%nat.
Proof.
  apply (other_guilds_untouched (H := described) (OnCommand DoLeave 1 None)
           cog_two_guilds 2 1).
  - apply cog_run_sound, empty_cog_sound.
  - discriminate.
  - reflexivity.
Defined.

(** ** Commands that cannot raise *)





(** ** The error handler, where it completes *)

(** X4.  [cog_command_error] completes, reaching the traceback on l.187,
    exactly for the errors that are instances of [CommandNotFound],
    [UserInputError] or [YoutubeDLError], subclasses included; it then has
    sent exactly one reply and has touched neither the registry nor a
    player. *)
Theorem cog_command_error_completes_iff_handled (error : Error) (w : Cog) :
  ((cog_command_error error w).1 = Ret true <-> handled error = true)
  /\ (handled error = true ->
      length (new_replies w (cog_command_error error w).2) = 1%nat
      /\ audio_players (cog_command_error error w).2 = audio_players w
      /\ players (cog_command_error error w).2 = players w
      /\ calls (cog_command_error error w).2 = calls w).
Proof.
  unfold handled, cog_command_error, new_replies, isinstance, lift_res, mbind,
    M_bind, send, modify. simpl.
  destruct (issubclass (err_class error) CommandNotFound); simpl.
  { rewrite drop_app_length. split; [split; done|done]. }
  destruct (issubclass (err_class error) UserInputError); simpl.
  { rewrite drop_app_length. split; [split; done|done]. }
  destruct (issubclass (err_class error) YoutubeDLError); simpl.
  { rewrite drop_app_length. split; [split; done|done]. }
  split; [split; discriminate|discriminate].
Qed.

(** A missing argument is a [UserInputError]: the reply carries its text. *)
Lemma cog_command_error_completes_iff_handled_witness :
  (cog_command_error missing_argument cog_idle).1 = Ret true
  /\ length (new_replies cog_idle (cog_command_error missing_argument cog_idle).2)
     = 1%nat.
Proof.
  destruct (cog_command_error_completes_iff_handled missing_argument cog_idle)
    as [Hiff Hsent].
  split.
  - apply Hiff. reflexivity.
  - apply Hsent. reflexivity.
Defined.

(** ** The listener, where it acts *)

(** X5.  The listener calls a player's [leave] only under the conditions it
    tests: the member is not the bot, has no channel afterwards, left a
    channel with at most one voice state in it, and the player of that
    channel's guild has a voice client on a channel of the same id.  It
    makes no other call, and a voice-state update of the bot itself, or one
    with a channel afterwards, leaves the cog exactly as it was. *)
Theorem voice_update_leaves_only_when_tested `{Collaborators} (w : Cog)
    (member : Z) (before after : VoiceState) :
  let w' := (on_voice_state_update member before after w).2 in
  ((member = bot_user_id w \/ after <> None) ->
   on_voice_state_update member before after w = (Ret tt, w))
  /\ (calls w' = calls w
      \/ exists ch r ap vc,
           member <> bot_user_id w /\ after = None /\ before = Some ch
           /\ audio_players w' !! channel_guild_id ch = Some r
           /\ voice_client ap = Some vc
           /\ channel_id ch = channel_id (vc_channel vc)
           /\ (length (channel_voice_states ch) <= 1)%nat
           /\ players w' !! r = Some (ap_leave ap).2
           /\ calls w' = calls w ++ [CLeave r]).
Proof.
  intros w'. subst w'. split.
  - intros Hskip. unfold on_voice_state_update. erewrite bind_ret by reflexivity.
    destruct Hskip as [->|Hafter].
    + by rewrite Z.eqb_refl.
    + rewrite (bool_decide_eq_false_2 _ Hafter). by rewrite andb_false_r.
  - unfold on_voice_state_update. erewrite bind_ret by reflexivity.
    destruct (member =? bot_user_id w) eqn:Hm; simpl; [by left|].
    apply Z.eqb_neq in Hm.
    destruct (bool_decide (after = None)) eqn:Ha; [|by left].
    apply bool_decide_eq_true in Ha.
    destruct before as [ch|]; [|by left].
    set (g := channel_guild_id ch).
    assert (exists r w1,
               get_audio_player g w = (Ret r, w1) /\ calls w1 = calls w
               /\ audio_players w1 !! g = Some r) as (r & w1 & Hget & Hcalls & Hreg).
    { destruct (audio_players w !! g) as [r|] eqn:Hg.
      - exists r, w. by rewrite (get_audio_player_known g r w Hg).
      - eexists _, _. rewrite (get_audio_player_new g w Hg).
        split; [done|]. split; [done|]. simpl. apply lookup_insert_eq. }
    erewrite bind_ret by exact Hget.
    destruct (players w1 !! r) as [ap|] eqn:Hap.
    2:{ erewrite bind_raise by (unfold read_player; by rewrite Hap).
        left. by rewrite <- Hcalls. }
    erewrite bind_ret by (by apply read_player_eq).
    destruct (voice_client ap) as [vc|] eqn:Hvc; [|left; by rewrite <- Hcalls].
    destruct (channel_id ch =? channel_id (vc_channel vc)) eqn:Hid; simpl;
      [|left; by rewrite <- Hcalls].
    destruct (length (channel_voice_states ch) <=? 1)%nat eqn:Hlen; simpl;
      [|left; by rewrite <- Hcalls].
    right. exists ch, r, ap, vc.
    erewrite bind_ret by (by apply call_method_eq). simpl.
    apply Z.eqb_eq in Hid. apply Nat.leb_le in Hlen.
    repeat split; try done.
    + apply list_lookup_insert_eq. by eapply lookup_lt_Some.
    + by rewrite Hcalls.
Qed.

(** The bot's own disconnection changes nothing. *)
Lemma voice_update_leaves_only_when_tested_witness :
  on_voice_state_update (H := described) 7 (Some channel_a) None cog_playing
  = (Ret tt, cog_playing).
Proof.
  apply (voice_update_leaves_only_when_tested (H := described) cog_playing 7
           (Some channel_a) None).
  left. reflexivity.
Defined.

(** ** [_play] before the song is resolved *)

(** X6.  [_play] with an empty argument raises [UserInputError] and changes
    nothing.  With a player that already has a voice client it goes on
    without joining: nothing is called and no driver task is started,
    whatever has become of the player's driver task.  Only a player without
    a voice client is joined. *)
Theorem play_prologue_joins_only_unconnected (ctx : Context) (w : Cog)
    (ap : AudioPlayer) (args : string) :
  players w !! ctx_audio_player ctx = Some ap ->
  _play_prologue ctx EmptyString w = (Raise UserInputError, w)
  /\ (args <> EmptyString ->
      (is_Some (voice_client ap) -> _play_prologue ctx args w = (Ret tt, w))
      /\ (voice_client ap = None -> _play_prologue ctx args w = join ctx w)).
Proof.
  intros Hap. split; [done|]. intros Hargs.
  unfold _play_prologue. rewrite (bool_decide_eq_false_2 _ Hargs).
  erewrite bind_ret by (by apply read_player_eq).
  split.
  - intros [vc ->]. done.
  - intros ->. done.
Qed.

(** A connected player whose driver has completed: [_play] starts none. *)
Lemma play_prologue_joins_only_unconnected_witness :
  _play_prologue ctx_1 "some song" cog_driver_done = (Ret tt, cog_driver_done)
  /\ task_done cog_driver_done 0 = true.
Proof.
  destruct (play_prologue_joins_only_unconnected ctx_1 cog_driver_done
              playing_player "some song" eq_refl) as [_ Hgo].
  assert (("some song" : string) <> EmptyString) as Hne by discriminate.
  destruct (Hgo Hne) as [Hconn _].
  split; [|reflexivity].
  apply Hconn. by eexists.
Defined.

(** ** [join], what it leaves behind *)


(** X7.  After [join], for an author in a voice channel, the player has a
    voice client on the author's channel and holds a driver task that has
    not completed. *)
Theorem join_connects_and_drives (ctx : Context) (w : Cog) (ap : AudioPlayer)
    (destination : VoiceChannel) :
  ctx_author_channel ctx = Some destination ->
  players w !! ctx_audio_player ctx = Some ap ->
  (join ctx w).1 = Ret tt
  /\ exists ap' vc t,
       players (join ctx w).2 !! ctx_audio_player ctx = Some ap'
       /\ voice_client ap' = Some vc
       /\ vc_channel vc = destination
       /\ audio_player_task ap' = Some t
       /\ task_done (join ctx w).2 t = false.
Proof.
  intros Hd Hap. rewrite (join_eq ctx w ap destination Hd Hap). simpl.
  assert (exists vc, voice_client (connected_to destination ap) = Some vc
                     /\ vc_channel vc = destination) as (vc & Hvc & Hch).
  { unfold connected_to. destruct (voice_client ap); eexists; split; done. }
  assert (ctx_audio_player ctx < length (players w))%nat as Hr
    by (by eapply lookup_lt_Some).
  assert (exists t,
             players (driver_started (ctx_audio_player ctx) (connected_to destination ap)
                        (after_call (connect_call destination ap) (ctx_audio_player ctx)
                           (connected_to destination ap) w)) !! ctx_audio_player ctx
             = Some (set_audio_player_task (Some t) (connected_to destination ap))
             /\ task_done (driver_started (ctx_audio_player ctx)
                             (connected_to destination ap)
                             (after_call (connect_call destination ap)
                                (ctx_audio_player ctx)
                                (connected_to destination ap) w)) t = false)
    as (t0 & Hp0 & Hdone0).
  { exists (length (tasks w)). split.
    - simpl. apply list_lookup_insert_eq. by rewrite length_insert.
    - unfold task_done. simpl. rewrite lookup_app_r by lia.
      by rewrite Nat.sub_diag. }
  destruct (audio_player_task ap) as [t|] eqn:Ht.
  - destruct (task_done w t) eqn:Hdone.
    + split; [done|]. eexists _, vc, t0. split; [exact Hp0|]. simpl. done.
    + split; [done|]. exists (connected_to destination ap), vc, t.
      split; [by apply list_lookup_insert_eq|].
      split; [done|]. split; [done|].
      split; [by rewrite connected_to_task|done].
  - split; [done|]. eexists _, vc, t0. split; [exact Hp0|]. simpl. done.
Qed.

(** A join on a connected player whose driver has completed starts the
    next driver, task 1. *)
Lemma join_connects_and_drives_witness :
  (join ctx_1 cog_driver_done).1 = Ret tt
  /\ tasks (join ctx_1 cog_driver_done).2 = [(0%nat, true); (0%nat, false)].
Proof.
  destruct (join_connects_and_drives ctx_1 cog_driver_done playing_player channel_a
              eq_refl eq_refl) as [Hret _].
  split; [exact Hret | reflexivity].
Defined.

(** ** [leave], refused and followed up *)

Lemma singleton_registry_sound bot g r ps ts s c :
  (r < length ps)%nat -> registry_sound (mkCog bot {[ g := r ]} ps ts s c).
Proof.
  intros Hr. split; simpl.
  - intros g0 r0 H0. apply lookup_singleton_Some in H0 as [_ <-]. done.
  - intros g1 g2 r0 H1 H2.
    apply lookup_singleton_Some in H1 as [<- _].
    apply lookup_singleton_Some in H2 as [<- _]. done.
Qed.

(** X8.  When the player's [leave] reports failure, the [leave] command
    answers that the bot is not connected and keeps the registry as it is.
    After a [leave] that succeeded, the next command in the guild is given a
    player object that did not exist before, registered for the guild in
    place of the old one. *)
Theorem leave_refused_or_replaced `{Collaborators} (w : Cog) (g : Z) (r : nat)
    (ap : AudioPlayer) (author author' : option VoiceChannel) :
  registry_sound w ->
  audio_players w !! g = Some r ->
  players w !! r = Some ap ->
  let out := leave (mkContext g author r) w in
  if (ap_leave ap).1 then
    exists r',
      (cog_before_invoke g author' out.2).1 = Ret (mkContext g author' r')
      /\ r' <> r
      /\ players w !! r' = None
      /\ audio_players (cog_before_invoke g author' out.2).2 !! g = Some r'
  else
    out.1 = Ret tt
    /\ new_replies w out.2 = [RNotConnected]
    /\ audio_players out.2 = audio_players w.
Proof.
  intros [Halloc _] Hg Hr out. subst out.
  rewrite (leave_eq (mkContext g author r) w ap Hr). simpl.
  destruct (ap_leave ap).1; simpl.
  - rewrite Hg. simpl. exists (length (players w)).
    unfold cog_before_invoke.
    erewrite bind_ret by (apply get_audio_player_new; apply lookup_delete_eq).
    unfold mret, M_ret. simpl. rewrite !length_insert.
    split; [done|].
    split; [specialize (Halloc _ _ Hg); lia|].
    split; [by apply lookup_ge_None_2|].
    apply lookup_insert_eq.
  - unfold new_replies. simpl. rewrite drop_app_length. done.
Qed.

(** A [leave] on a player without a voice client is refused; on a connected
    one it succeeds and the next command gets object 1. *)
Lemma leave_refused_or_replaced_witness :
  new_replies cog_queue_only (leave (H := described) ctx_1 cog_queue_only).2
    = [RNotConnected]
  /\ (cog_before_invoke 1 None (leave (H := described) ctx_1 cog_playing).2).1
     = Ret (mkContext 1 None 1).
Proof.
  assert (registry_sound cog_queue_only /\ registry_sound cog_playing) as [Hs1 Hs2].
  { split; apply singleton_registry_sound; simpl; lia. }
  split.
  - apply (leave_refused_or_replaced (H := described) cog_queue_only 1 0
             (set_song_queue [song_a; song_b] new_audio_player)
             (Some channel_a) None Hs1 eq_refl eq_refl).
  - destruct (leave_refused_or_replaced (H := described) cog_playing 1 0
                playing_player (Some channel_a) None Hs2 eq_refl eq_refl)
      as (r' & Hctx & _).
    reflexivity.
Defined.

(** ** [remove], its other branches *)

(** X9.  On an empty queue [remove] answers that the queue is empty whatever
    its arguments, none included, and calls nothing.  With a first argument
    that is no integer it searches for all the arguments joined by spaces,
    the first included, asks the player to remove the first queued song
    among the ids found, and reports a miss with the same joined text. *)
Theorem remove_empty_queue_and_query `{Collaborators} (ctx : Context) (w : Cog)
    (ap : AudioPlayer) (args : list string) (a0 : string) (rest : list string) :
  players w !! ctx_audio_player ctx = Some ap ->
  (song_queue ap = [] ->
   remove ctx args w = (Ret tt, with_sent (sent w ++ [REmptyQueue]) w))
  /\ (song_queue ap <> [] -> is_int a0 = false ->
      let r := ctx_audio_player ctx in
      let query := join_args (a0 :: rest) in
      let ids := yt_search_ids query in
      let out := remove ctx (a0 :: rest) w in
      out.1 = Ret tt
      /\ calls out.2 = calls w ++ [CRemoveSongIds r ids]
      /\ players out.2 = <[r := (ap_remove_song_ids ids ap).2]> (players w)
      /\ new_replies w out.2 =
           [match (ap_remove_song_ids ids ap).1 with
            | None => RNoMatch query
            | Some s => RRemoved s
            end]).
Proof.
  intros Hap. split.
  - intros Hq. unfold remove. erewrite bind_ret by (by apply read_player_eq).
    by rewrite Hq.
  - intros Hq Hint r query ids out. subst r query ids out.
    unfold remove, new_replies. erewrite bind_ret by (by apply read_player_eq).
    destruct (song_queue ap) eqn:Eq; [done|]. rewrite Hint.
    erewrite bind_ret by (by apply call_method_eq).
    destruct (ap_remove_song_ids _ ap).1; simpl; rewrite drop_app_length; done.
Qed.

(** [remove] without arguments on an empty queue, and a two-word query on
    the queue [song_b; song_c]. *)
Lemma remove_empty_queue_and_query_witness :
  (remove (H := described) ctx_1 [] cog_idle).1 = Ret tt
  /\ new_replies cog_playing
       (remove (H := described) ctx_1 ["never"; "gonna"] cog_playing).2
     = [RNoMatch "never gonna"].
Proof.
  destruct (remove_empty_queue_and_query (H := described) ctx_1 cog_idle
              new_audio_player [] "x" [] eq_refl) as [Hempty _].
  destruct (remove_empty_queue_and_query (H := described) ctx_1 cog_playing
              playing_player [] "never" ["gonna"] eq_refl) as [_ Hquery].
  split.
  - by rewrite (Hempty eq_refl).
  - assert (song_queue playing_player <> []) as Hq by discriminate.
    destruct (Hquery Hq eq_refl) as (_ & _ & _ & Hrep). exact Hrep.
Defined.

(** ** [_play] and the usage database *)

Lemma step_recorder_idle `{Collaborators} db l st :
  recorder_idle db st /\ ps_raised st = None ->
  recorder_idle db (step l st) /\ ps_raised (step l st) = None.
Proof.
  intros [(Hi & Hrows & Hlog) Hr]. destruct l as [|k ok|b].
  - unfold step, recorder_idle.
    destruct (ps_pc st) as [|i rest] eqn:Epc; [by rewrite Epc|].
    destruct i as [m|t|j|s|s pn']; unfold exec; simpl in *; try done.
    destruct (bool_decide (j ∈ ps_processed st)); simpl; [done|by rewrite Epc].
  - unfold step, recorder_idle, processed. destruct (_ && _); simpl; done.
  - done.
Qed.

Lemma body_without_recorder pn res : inserts_of (_play_body false pn res) = [].
Proof.
  destruct res as [song|pl]; simpl; [done|].
  generalize 0%nat. induction pl as [|s pl IH]; intros k; simpl; [done|apply IH].
Qed.

(** X10.  With the usage database disabled, [_play] never calls the
    recorder: for a single song as for a collection, under every schedule
    and whatever the collaborators, the rows and the failure log of the
    database stay as they were, and no exception ends the handler. *)
Theorem disabled_database_is_never_written `{Collaborators} (pn : bool)
    (res : Resolved) (ap : AudioPlayer) (db : UsageDatabase) (sched : list Label) :
  let st := run sched (start ap db (_play_body false pn res)) in
  db_rows (ps_usage_db st) = db_rows db
  /\ db_failure_log (ps_usage_db st) = db_failure_log db
  /\ ps_raised st = None.
Proof.
  intros st. subst st.
  assert (recorder_idle db (run sched (start ap db (_play_body false pn res)))
          /\ ps_raised (run sched (start ap db (_play_body false pn res))) = None)
    as [(_ & Hrows & Hlog) Hr].
  { apply (run_invariant (fun st => recorder_idle db st /\ ps_raised st = None)).
    - split; [|done]. split; [apply body_without_recorder|done].
    - intros l st'. apply step_recorder_idle. }
  done.
Qed.

(** ** What [_play] sends *)

Lemma step_sends_agree `{Collaborators} all l st :
  sends_agree all st -> sends_agree all (step l st).
Proof.
  intros Hs. unfold sends_agree in *. destruct l as [|k ok|b].
  - handler_cases st; simpl in *; rewrite ?Epc in *; simpl in *; try done.
    + by rewrite <- app_assoc.
    + etrans; [|exact Hs]. rewrite app_nil_r. by apply prefix_app_r.
  - unfold step. by rewrite processed_sent, processed_pc.
  - done.
Qed.

Lemma consume_sends dbf pn k pl :
  sends_of (consume dbf pn k pl ++ [ISend RFinishedProcessing])
  = [RFinishedProcessing].
Proof.
  revert k. induction pl as [|s pl IH]; intros k; [done|].
  simpl. destruct dbf; simpl; apply IH.
Qed.

(** X11.  Under every schedule and whatever the collaborators, what the
    handler has sent is an initial part of: the one reply naming the song,
    "next" or "now" by [play_next], for a single song; the playlist embed
    and then the closing message, with nothing in between, for a
    collection. *)
Theorem play_replies_in_order `{Collaborators} (dbf pn : bool) (res : Resolved)
    (ap : AudioPlayer) (db : UsageDatabase) (sched : list Label) :
  ps_sent (run sched (start ap db (_play_body dbf pn res)))
  `prefix_of`
  match res with
  | Single song => [if pn then RPlayNext song else RPlayNow song]
  | Collection _ => [RPlaylistEmbed; RFinishedProcessing]
  end.
Proof.
  assert (sends_agree (sends_of (_play_body dbf pn res))
            (run sched (start ap db (_play_body dbf pn res)))) as Hs.
  { apply run_invariant; [|intros; by apply step_sends_agree].
    unfold sends_agree, start. simpl. done. }
  unfold sends_agree in Hs.
  assert (sends_of (_play_body dbf pn res)
          = match res with
            | Single song => [if pn then RPlayNext song else RPlayNow song]
            | Collection _ => [RPlaylistEmbed; RFinishedProcessing]
            end) as Hall.
  { destruct res as [song|pl]; simpl.
    - by destruct dbf.
    - by rewrite consume_sends. }
  rewrite <- Hall. etrans; [|exact Hs]. by apply prefix_app_r.
Qed.

(** ** Which request an argument makes *)

(** X12.  [_play] asks for a search only for an argument that none of the
    four link tests accepts, and it tests for a YouTube playlist first: an
    argument that is both a YouTube playlist and a YouTube video is enqueued
    as a playlist.  [stats] tests the other way round: for the same
    argument, when it is no Spotify link, it reports on the single video
    and does not refuse. *)
Theorem playlist_video_link_differs `{Classifiers} (args : string) (more : list string) :
  (forall a, factory_call args = CreateSongFromYtVideo a true ->
     a = args /\ is_yt_playlist args = false
     /\ is_spotify_album_or_playlist args = false
     /\ is_spotify_track args = false /\ is_yt_video args = false)
  /\ (is_yt_playlist args = true -> is_yt_video args = true ->
      factory_call args = CreateYtPlaylist args
      /\ (extract_discord_user_id args = None ->
          is_spotify_album_or_playlist args = false ->
          is_spotify_track args = false ->
          stats_request true (args :: more)
          = StatsCreate (mkStatsKwargs None None (Some args) (Some false)))).
Proof.
  split.
  - intros a. unfold factory_call.
    destruct (is_yt_playlist args); [discriminate|].
    destruct (is_spotify_album_or_playlist args); [discriminate|].
    destruct (is_spotify_track args); [discriminate|].
    destruct (is_yt_video args); simpl; [discriminate|].
    intros [= <-]. done.
  - intros Hpl Hv. split.
    + unfold factory_call. by rewrite Hpl.
    + intros Hu Ha Ht. unfold stats_request, stats_user. simpl.
      rewrite Hu. simpl. by rewrite Ha, Hpl, Hv, Ht.
Qed.

(** A link to a video inside a playlist. *)
Lemma playlist_video_link_differs_witness :
  factory_call (H := sample_classifiers) video_in_playlist
    = CreateYtPlaylist video_in_playlist
  /\ stats_request (H := sample_classifiers) true [video_in_playlist]
     = StatsCreate (mkStatsKwargs None None (Some video_in_playlist) (Some false)).
Proof.
  destruct (playlist_video_link_differs (H := sample_classifiers) video_in_playlist [])
    as [_ Hboth].
  destruct (Hboth eq_refl eq_refl) as [Hplay Hstats].
  split; [exact Hplay|]. apply Hstats; reflexivity.
Defined.

(** ** The arguments of [stats] *)

(** X13.  [stats] with the usage database disabled answers that stats are
    not enabled, whatever its arguments.  Otherwise the keyword arguments it
    builds name at most one song, by [spotify_args] or by [ytdl_args] and
    never both, and [is_yt_search] is set exactly when a song is named. *)
Theorem stats_names_at_most_one_song `{Classifiers} (enabled : bool)
    (args : list string) (kw : StatsKwargs) :
  stats_request false args = StatsNotEnabled
  /\ (stats_request enabled args = StatsCreate kw ->
      enabled = true
      /\ (kw_spotify_args kw = None \/ kw_ytdl_args kw = None)
      /\ (is_Some (kw_is_yt_search kw)
          <-> is_Some (kw_spotify_args kw) \/ is_Some (kw_ytdl_args kw))).
Proof.
  split; [done|]. unfold stats_request.
  destruct enabled; simpl; [|discriminate].
  destruct (stats_user args) as [user index].
  destruct (args !! index) as [a|].
  - destruct (is_spotify_album_or_playlist a); [discriminate|].
    destruct (is_yt_playlist a && negb (is_yt_video a)); [discriminate|].
    destruct (is_spotify_track a); [|destruct (is_yt_video a)];
      intros [= <-]; simpl; (split; [done|]); (split; [by auto|]);
      split; intros _; eauto.
  - intros [= <-]. simpl. split; [done|]. split; [by left|].
    split.
    + intros [b Hb]. discriminate.
    + intros [[s Hs]|[s Hs]]; discriminate.
Qed.

(** A search for two words. *)
Lemma stats_names_at_most_one_song_witness :
  kw_spotify_args (mkStatsKwargs None None (Some "never gonna") (Some true)) = None
  \/ kw_ytdl_args (mkStatsKwargs None None (Some "never gonna") (Some true)) = None.
Proof.
  destruct (stats_names_at_most_one_song (H := sample_classifiers) true
              ["never"; "gonna"]
              (mkStatsKwargs None None (Some "never gonna") (Some true)))
    as [_ Hkw].
  destruct (Hkw eq_refl) as (_ & Hone & _). exact Hone.
Defined.

(** X14.  When the first argument of [stats] names a user, the song is
    read from the arguments after it: a search is for the remaining
    arguments joined by spaces, without the mention, and a mention alone
    asks for the stats of the user with no song.  When the first argument
    names no user, a search is for all the arguments. *)
Theorem stats_search_leaves_out_mention `{Classifiers} (a0 : string)
    (rest : list string) (user_id : Z) :
  (extract_discord_user_id a0 = Some user_id -> user_id <> 0 ->
   stats_request true [a0] = StatsCreate (mkStatsKwargs (Some user_id) None None None)
   /\ forall a1 more,
        rest = a1 :: more ->
        is_spotify_album_or_playlist a1 = false -> is_yt_playlist a1 = false ->
        is_spotify_track a1 = false -> is_yt_video a1 = false ->
        stats_request true (a0 :: rest)
        = StatsCreate (mkStatsKwargs (Some user_id) None (Some (join_args rest))
                         (Some true)))
  /\ (extract_discord_user_id a0 = None ->
      is_spotify_album_or_playlist a0 = false -> is_yt_playlist a0 = false ->
      is_spotify_track a0 = false -> is_yt_video a0 = false ->
      stats_request true (a0 :: rest)
      = StatsCreate (mkStatsKwargs None None (Some (join_args (a0 :: rest)))
                       (Some true))).
Proof.
  split.
  - intros Hu Hne. apply Z.eqb_neq in Hne.
    unfold stats_request, stats_user. simpl. rewrite Hu, Hne. simpl.
    split; [done|]. intros a1 more -> Ha Hp Ht Hv. simpl.
    by rewrite Ha, Hp, Ht, Hv.
  - intros Hu Ha Hp Ht Hv. unfold stats_request, stats_user. simpl.
    rewrite Hu. simpl. by rewrite Ha, Hp, Ht, Hv.
Qed.

(** [stats @42 never gonna] searches for "never gonna". *)
Lemma stats_search_leaves_out_mention_witness :
  stats_request (H := sample_classifiers) true ["@42"; "never"; "gonna"]
  = StatsCreate (mkStatsKwargs (Some 42) None (Some "never gonna") (Some true)).
Proof.
  destruct (stats_search_leaves_out_mention (H := sample_classifiers) "@42"
              ["never"; "gonna"] 42) as [Huser _].
  assert ((42 : Z) <> 0) as Hne by discriminate.
  destruct (Huser eq_refl Hne) as [_ Hsearch].
  apply (Hsearch "never" ["gonna"]); reflexivity.
Defined.

(** ** Commands that only report *)

Ltac run_told :=
  unfold report, queue_change, status, now, queue, slap, clear, shuffle, loop,
    on_cog, tell, read_player, write_player, modify, raise, mbind, MT_bind, mret,
    MT_ret; simpl.

(** X15.  [now], [queue], [status] and [slap] only report: whatever the
    state, and whether or not they end normally, they leave the cog exactly
    as it was and add to what has been sent without altering it. *)
Theorem reports_change_nothing (c : Report) (ctx : Context) (s : Told) :
  (report c ctx s).2.2 = s.2
  /\ s.1 `prefix_of` (report c ctx s).2.1.
Proof.
  destruct s as [told w].
  destruct c; run_told; repeat (case_match; simplify_eq/=);
    (split; [reflexivity|repeat apply prefix_app_r; reflexivity]).
Qed.

(** X16.  [status] first tells whether the queue loops, then what [now]
    tells, then what [queue] tells for page 1: when it returns it has sent
    exactly three notices, the first being the loop state.  It fails only
    where [now] does, on a player that is playing without a current song,
    and has then sent the loop state alone. *)
Theorem status_sends_three (ctx : Context) (told : list Notice) (w : Cog)
    (ap : AudioPlayer) :
  players w !! ctx_audio_player ctx = Some ap ->
  let loop_state := if is_queue_looping ap then NQueueLooping else NNothingLooping in
  let out := status ctx (told, w) in
  if is_currently_playing ap && negb (bool_decide (is_Some (current_song ap)))
  then out = (Raise AttributeError, (told ++ [loop_state], w))
  else out.1 = Ret tt
       /\ exists playing queued,
            out.2.1 = told ++ [loop_state; playing; queued]
            /\ (now ctx (told, w)).2.1 = told ++ [playing]
            /\ (queue ctx 1 (told, w)).2.1 = told ++ [queued].
Proof.
  intros Hap loop_state out. subst loop_state out.
  destruct (is_currently_playing ap) eqn:Hp; destruct (current_song ap) as [s|] eqn:Hc;
    simpl.
  - run_told. repeat (rewrite ?Hap, ?Hp, ?Hc; simpl).
    destruct (song_queue ap); simpl; (split; [done|]); eexists _, _;
      rewrite <- !app_assoc; simpl; done.
  - run_told. repeat (rewrite ?Hap, ?Hp, ?Hc; simpl). done.
  - run_told. repeat (rewrite ?Hap, ?Hp, ?Hc; simpl).
    destruct (song_queue ap); simpl; (split; [done|]); eexists _, _;
      rewrite <- !app_assoc; simpl; done.
  - run_told. repeat (rewrite ?Hap, ?Hp, ?Hc; simpl).
    destruct (song_queue ap); simpl; (split; [done|]); eexists _, _;
      rewrite <- !app_assoc; simpl; done.
Qed.

(** [status] on the playing player of [cog_playing]. *)
Lemma status_sends_three_witness :
  (status ctx_1 ([], cog_playing)).2.1
  = [NNothingLooping; NNowEmbed song_a; NQueueEmbed 1 [song_b; song_c]].
Proof.
  pose proof (status_sends_three ctx_1 [] cog_playing playing_player eq_refl) as Hs.
  simpl in Hs. destruct Hs as (_ & playing & queued & Hout & _).
  reflexivity.
Defined.

(** ** Commands that change the queue *)

(** X17.  On an empty queue [clear] and [shuffle] call nothing: each sends
    its own notice that the queue is empty and leaves the cog as it was.
    On a queue with songs [clear] replaces the player by what
    [clear_song_queue] leaves and confirms; [shuffle] replaces it by what
    [shuffle_song_queue] leaves and sends nothing at all. *)
Theorem clear_and_shuffle_guard_empty_queue `{QueueMethods} (ctx : Context)
    (told : list Notice) (w : Cog) (ap : AudioPlayer) :
  players w !! ctx_audio_player ctx = Some ap ->
  let r := ctx_audio_player ctx in
  match song_queue ap with
  | [] =>
      clear ctx (told, w) = (Ret tt, (told ++ [NNoSongInQueue], w))
      /\ shuffle ctx (told, w) = (Ret tt, (told ++ [NQueueEmpty], w))
  | _ :: _ =>
      clear ctx (told, w)
      = (Ret tt, (told ++ [NQueueCleared],
                  with_players (<[r := ap_clear_song_queue ap]> (players w)) w))
      /\ shuffle ctx (told, w)
         = (Ret tt, (told, with_players (<[r := ap_shuffle_song_queue ap]> (players w)) w))
  end.
Proof.
  intros Hap r. subst r. run_told. rewrite Hap. simpl.
  destruct (song_queue ap); simpl; done.
Qed.

(** [shuffle] on the queue [song_b; song_c] is silent; [clear] on an empty
    queue changes nothing. *)
Lemma clear_and_shuffle_guard_empty_queue_witness :
  (shuffle (H := sample_queue_methods) ctx_1 ([], cog_playing)).2.1 = []
  /\ clear (H := sample_queue_methods) ctx_1 ([], cog_idle)
     = (Ret tt, ([NNoSongInQueue], cog_idle)).
Proof.
  pose proof (clear_and_shuffle_guard_empty_queue (H := sample_queue_methods) ctx_1 []
                cog_playing playing_player eq_refl) as Hfull.
  pose proof (clear_and_shuffle_guard_empty_queue (H := sample_queue_methods) ctx_1 []
                cog_idle new_audio_player eq_refl) as Hempty.
  simpl in Hfull, Hempty. destruct Hfull as [_ Hsh]. destruct Hempty as [Hcl _].
  split; [by rewrite Hsh | exact Hcl].
Defined.

(** X18.  [clear], [shuffle] and [loop] change at most the player of the
    command's own context: the registry, every other player object, the
    driver tasks and the record of calls are as before, whatever the
    methods of the player do. *)
Theorem queue_changes_stay_with_player `{QueueMethods} (c : QueueChange)
    (ctx : Context) (s : Told) :
  let w' := (queue_change c ctx s).2.2 in
  audio_players w' = audio_players s.2
  /\ tasks w' = tasks s.2
  /\ calls w' = calls s.2
  /\ length (players w') = length (players s.2)
  /\ (forall r', r' <> ctx_audio_player ctx -> players w' !! r' = players s.2 !! r').
Proof.
  destruct s as [told w]. intros w'. subst w'.
  destruct c; run_told;
    destruct (players w !! ctx_audio_player ctx) as [ap|] eqn:Hap; simpl;
    try (repeat split; done).
  - destruct (song_queue ap); simpl; repeat split; try done.
    + apply length_insert.
    + intros r' Hr'. by apply list_lookup_insert_ne.
  - destruct (song_queue ap); simpl; repeat split; try done.
    + apply length_insert.
    + intros r' Hr'. by apply list_lookup_insert_ne.
  - rewrite list_lookup_insert_eq by (by eapply lookup_lt_Some). simpl.
    destruct (is_queue_looping _); simpl; repeat split; try done;
      try apply length_insert; intros r' Hr'; by apply list_lookup_insert_ne.
Qed.

(** ** Unloading the cog *)

Lemma leave_all_spec `{Collaborators} (refs : list nat) (w : Cog) :
  NoDup refs ->
  (forall r, r ∈ refs -> (r < length (players w))%nat) ->
  (leave_all refs w).1 = Ret tt
  /\ audio_players (leave_all refs w).2 = audio_players w
  /\ length (players (leave_all refs w).2) = length (players w)
  /\ (forall r ap, r ∈ refs -> players w !! r = Some ap ->
        players (leave_all refs w).2 !! r = Some (ap_leave ap).2)
  /\ (forall r, r ∉ refs -> players (leave_all refs w).2 !! r = players w !! r).
Proof.
  revert w. induction refs as [|r refs IH]; intros w Hnd Hval.
  { simpl. repeat split; auto. intros r ap Hin. by apply elem_of_nil in Hin. }
  apply NoDup_cons in Hnd as [Hnotin Hnd].
  destruct (lookup_lt_is_Some_2 (players w) r) as [ap Hap].
  { apply Hval. by left. }
  unfold leave_all. simpl. fold (leave_all refs).
  erewrite bind_ret by (by apply call_method_eq).
  set (w1 := after_call (CLeave r) r (ap_leave ap).2 w).
  assert (length (players w1) = length (players w)) as Hlen by apply length_insert.
  destruct (IH w1 Hnd) as (Hret & Hreg & Hl & Hin & Hout).
  { intros r' Hr'. rewrite Hlen. apply Hval. by right. }
  split; [done|]. split; [done|]. split; [congruence|]. split.
  - intros r' ap' Hr' Hap'. apply elem_of_cons in Hr' as [->|Hr'].
    + rewrite Hout by done. assert (ap' = ap) as -> by congruence.
      by eapply after_call_lookup.
    + apply Hin; [done|]. simpl. rewrite list_lookup_insert_ne; [done|].
      intros ->. done.
  - intros r' Hr'. apply not_elem_of_cons in Hr' as [Hne Hr'].
    rewrite Hout by done. simpl. by apply list_lookup_insert_ne.
Qed.

(** X19.  With every registered reference denoting its own object,
    [cog_unload] returns normally having made every registered player
    leave, each once; the players that are not registered are untouched,
    and the registry itself is left as it was, entries included. *)
Theorem cog_unload_leaves_every_player `{Collaborators} (w : Cog) :
  registry_sound w ->
  (cog_unload w).1 = Ret tt
  /\ audio_players (cog_unload w).2 = audio_players w
  /\ (forall g r ap, audio_players w !! g = Some r -> players w !! r = Some ap ->
        players (cog_unload w).2 !! r = Some (ap_leave ap).2)
  /\ (forall r, (forall g, audio_players w !! g <> Some r) ->
        players (cog_unload w).2 !! r = players w !! r).
Proof.
  intros [Halloc Hinj]. unfold cog_unload. erewrite bind_ret by reflexivity.
  set (refs := (map_to_list (audio_players w)).*2).
  assert (forall r, r ∈ refs <-> exists g, audio_players w !! g = Some r) as Hrefs.
  { intros r. unfold refs. rewrite list_elem_of_fmap. split.
    - intros ([g r'] & -> & Hin). exists g. by apply elem_of_map_to_list.
    - intros [g Hg]. exists (g, r). split; [done|]. by apply elem_of_map_to_list. }
  assert (NoDup refs) as Hnd.
  { unfold refs. apply NoDup_fmap_2_strong; [|apply NoDup_map_to_list].
    intros [g1 r1] [g2 r2] H1 H2. simpl. intros <-.
    apply elem_of_map_to_list in H1, H2. f_equal. by eapply Hinj. }
  destruct (leave_all_spec refs w Hnd) as (Hret & Hreg & _ & Hin & Hout).
  { intros r Hr. apply Hrefs in Hr as [g Hg]. by eapply Halloc. }
  split; [done|]. split; [done|]. split.
  - intros g r ap Hg Hap. apply Hin; [|done]. apply Hrefs. by exists g.
  - intros r Hnone. apply Hout. intros Hr. apply Hrefs in Hr as [g Hg].
    by apply (Hnone g).
Qed.

(** Unloading [cog_playing]: its one player is reset, its entry kept. *)
Lemma cog_unload_leaves_every_player_witness :
  (cog_unload (H := described) cog_playing).1 = Ret tt
  /\ audio_players (cog_unload (H := described) cog_playing).2 !! 1 = Some 0%nat
  /\ players (cog_unload (H := described) cog_playing).2 !! 0%nat
     = Some new_audio_player.
Proof.
  assert (registry_sound cog_playing) as Hs
    by (apply singleton_registry_sound; simpl; lia).
  destruct (cog_unload_leaves_every_player (H := described) cog_playing Hs)
    as (Hret & Hreg & Hleft & _).
  split; [exact Hret|]. split.
  - by rewrite Hreg.
  - apply (Hleft 1 0%nat playing_player); reflexivity.
Defined.

(** ** Looking a player up *)

(** X20.  [get_audio_player] gets or creates: asked twice for the same
    guild it answers with the same player, and the second call changes
    nothing; the first call changes no entry of another guild and no
    player object that existed before. *)
Theorem get_audio_player_is_idempotent (g : Z) (w : Cog) :
  exists r,
    get_audio_player g w = (Ret r, (get_audio_player g w).2)
    /\ get_audio_player g (get_audio_player g w).2
       = (Ret r, (get_audio_player g w).2)
    /\ (forall g', g' <> g ->
          audio_players (get_audio_player g w).2 !! g' = audio_players w !! g')
    /\ (forall r' ap, players w !! r' = Some ap ->
          players (get_audio_player g w).2 !! r' = Some ap).
Proof.
  destruct (audio_players w !! g) as [r|] eqn:Hg.
  - exists r. rewrite (get_audio_player_known g r w Hg). simpl.
    rewrite (get_audio_player_known g r w Hg). done.
  - exists (length (players w)). rewrite (get_audio_player_new g w Hg). simpl.
    split; [done|]. split.
    + apply get_audio_player_known. simpl. apply lookup_insert_eq.
    + split.
      * intros g' Hne. by apply lookup_insert_ne.
      * intros r' ap Hap. by apply lookup_app_l_Some.
Qed.

(** ** [_play], once past its first lines *)


